(** * The development build orchestrator of t-core-bytemd

    A shallow embedding of the watch script (scripts of the repository:
    [buildPackage], [getPackageName], [debounce], [queueBuild],
    [debouncedBuild], the chokidar handlers and the initial build loop),
    and the scheduling properties of it.

    The script is single threaded: a handler runs to its next [await]
    without interruption.  A state of the model is a state of the script at
    a suspension point, an event is one turn of the event loop. *)

From Stdlib Require Import ZArith Lia String Ascii.
From stdpp Require Import base gmap sets list strings.

Set Warnings "-clear-no-such-hyp".

Local Open Scope string_scope.
Local Open Scope Z_scope.
Local Open Scope list_scope.

(** ** node:path, POSIX flavour

    Only what the script uses: [path.sep], [String.prototype.split] on it,
    [path.resolve] and [path.relative].  [packagesDir] and the paths that
    chokidar reports are absolute, so neither function consults
    [process.cwd()]. *)
Module Path.

Definition sep : ascii := "/"%char.

(** [s.split(c)] for a one character separator: never empty, the empty
    string splits into one empty segment. *)
Fixpoint split (c : ascii) (s : string) : list string :=
  match s with
  | EmptyString => [EmptyString]
  | String a s' =>
      if Ascii.eqb a c then EmptyString :: split c s'
      else match split c s' with
           | [] => [String a EmptyString]
           | w :: ws => String a w :: ws
           end
  end.

(** [l.join(c)] *)
Fixpoint join (c : ascii) (l : list string) : string :=
  match l with
  | [] => EmptyString
  | [w] => w
  | w :: ws => w +:+ String c (join c ws)
  end.

(** One step of [normalizeString]: the stack of segments kept so far is
    held in reverse.  Empty and ["."] segments are skipped, [".."] drops
    the last segment kept (and is itself dropped at the root). *)
Definition norm_step (acc : list string) (seg : string) : list string :=
  if decide (seg = EmptyString ∨ seg = ".") then acc
  else if decide (seg = "..") then tail acc
  else seg :: acc.

(** The segments of [path.resolve(p)] for an absolute [p]. *)
Definition segments (p : string) : list string :=
  reverse (foldl norm_step [] (split sep p)).

Definition of_segments (l : list string) : string :=
  String sep (join sep l).

(** [path.resolve(dir, name)] with [dir] absolute and [name] relative. *)
Definition resolve (dir name : string) : string :=
  of_segments (reverse (foldl norm_step [] (split sep dir ++ split sep name))).

(** Drop the longest common prefix of two segment lists. *)
Fixpoint strip_common (from to : list string) : list string * list string :=
  match from, to with
  | f :: from', t :: to' =>
      if decide (f = t) then strip_common from' to' else (from, to)
  | _, _ => (from, to)
  end.

(** [path.relative(from, to)]: one [".."] for every segment of [from]
    below the common ancestor, then what is left of [to]; the empty string when both
    resolve to the same path. *)
Definition relative (from to : string) : string :=
  let '(up, down) := strip_common (segments from) (segments to) in
  join sep (map (λ _, "..") up ++ down).

End Path.

(** ** Data of the script *)

(** The three chokidar events the script subscribes to. *)
Inductive Kind := Change | Add | Unlink.

(** How the body of the [try] block of [buildPackage] ends: it runs to its
    last line, an [await]ed step (or the [throw] of the cjs branch) throws
    an [Error] with a message, or the [return] of the svelte loop leaves
    the function early.  [message] is the text [console.error] prints for
    [error.message]; the steps of the build ([vite], [execa], [fs-extra],
    [svelte]) throw [Error] objects, which have one. *)
Inductive Outcome := Built | Threw (message : string) | Returned.

(** The two values that have no properties. *)
Inductive Nullish := JsNull | JsUndefined.

Definition nullish_name (v : Nullish) : string :=
  match v with JsNull => "null" | JsUndefined => "undefined" end.

(** What [catch (error)] can get hold of, any [throw] considered: a value
    whose [message] can be read and printed, or [null] or [undefined]
    (a promise rejected without a reason gives [undefined]), on which
    reading [error.message] is itself a [TypeError]. *)
Inductive Thrown := WithMessage (message : string) | Bare (v : Nullish).

(** The message of that [TypeError], in the words of V8. *)
Definition type_error (v : Nullish) : string :=
  "Cannot read properties of " +:+ nullish_name v +:+ " (reading 'message')".

(** The reason of a promise rejected with [e], as text. *)
Definition reason_of (e : Thrown) : string :=
  match e with
  | WithMessage message => message
  | Bare v => nullish_name v
  end.

(** Completion of a block: normal, [throw] or [return]. *)
Inductive Completion := Normal | Throw (e : Thrown) | Return.

(** What the script prints, as far as the scheduler is concerned: the
    lines of the top level, of the handlers, and the first and the last
    line of [buildPackage].  The four progress lines of the svelte branch
    (["build svelte files..."] to ["processing style files..."], printed
    for [bytemd] in between those two) belong to the body of the build,
    which the scheduler model leaves opaque, and are not recorded. *)
Inductive Line :=
| LWatching
| LBuildingAll
| LAllBuilt
| LBuilding (name : string)
| LBuilt (name : string)
| LError (name message : string)
| LFile (k : Kind) (filePath : string)
| LWatchError (err : string).

Definition kind_tag (k : Kind) : string :=
  match k with Change => "[changed] " | Add => "[added] " | Unlink => "[deleted] " end.

Definition nl : string := String "010"%char EmptyString.

(** The text of a line, as [console.log] and [console.error] get it. *)
Definition render (l : Line) : string :=
  match l with
  | LWatching => "Watching packages for changes..." +:+ nl
  | LBuildingAll => "Building all packages initially..." +:+ nl
  | LAllBuilt => nl +:+ "✓ All packages built. Watching for changes..." +:+ nl
  | LBuilding name => "[building] " +:+ name
  | LBuilt name => "[✓] " +:+ name +:+ " built successfully"
  | LError name message => "[✗] Error building " +:+ name +:+ ": " +:+ message
  | LFile k filePath => kind_tag k +:+ filePath
  | LWatchError err => "[watch error] " +:+ err
  end.

(** [console.error] lines, the others go through [console.log]. *)
Definition to_stderr (l : Line) : bool :=
  match l with LError _ _ | LWatchError _ => true | _ => false end.

(** The promise of an [async] function once settled. *)
Inductive Settlement := Fulfilled | Rejected (reason : string).

Inductive Phase := Running | Settled (s : Settlement).

(** Who [await]s a [buildPackage] promise: [queueBuild], or the top-level
    loop [for (const pkg of packages)] with the packages still to do. *)
Inductive Cont := KQueueBuild | KInitial (rest : list string).

(** An invocation of [buildPackage] that has not been resumed from:
    suspended inside its [try] block ([Running]), or returned with its
    awaiter not yet resumed ([Settled]). *)
Record Task := mkTask {
  t_name : string;
  t_originalCwd : string;
  t_cont : Cont;
  t_phase : Phase
}.

(** The calls made, in order, each with the time of the call.  Not a
    variable of the script: the record from which "how many builds were
    started" is read. *)
Inductive Obs :=
| QueueBuildCall (at_time : Z) (name : string)
| BuildCall (at_time : Z) (name : string).

Record State := mkState {
  building : gset string;            (* const building = new Set() *)
  buildQueue : gset string;          (* const buildQueue = new Set() *)
  timeout : option nat;              (* let timeout, of the one debounce closure *)
  timers : gmap nat (Z * string);    (* armed timers: handle -> deadline, args of later *)
  nextTimer : nat;                   (* next handle setTimeout returns *)
  clock : Z;
  cwd : string;                      (* process.cwd() *)
  tasks : list Task;
  console : list Line;
  trace : list Obs;
  rejections : list string           (* rejections nothing handled *)
}.

Definition set_building (v : gset string) (st : State) : State :=
  mkState v (buildQueue st) (timeout st) (timers st) (nextTimer st) (clock st)
          (cwd st) (tasks st) (console st) (trace st) (rejections st).
Definition set_buildQueue (v : gset string) (st : State) : State :=
  mkState (building st) v (timeout st) (timers st) (nextTimer st) (clock st)
          (cwd st) (tasks st) (console st) (trace st) (rejections st).
Definition set_timeout (v : option nat) (st : State) : State :=
  mkState (building st) (buildQueue st) v (timers st) (nextTimer st) (clock st)
          (cwd st) (tasks st) (console st) (trace st) (rejections st).
Definition set_timers (v : gmap nat (Z * string)) (st : State) : State :=
  mkState (building st) (buildQueue st) (timeout st) v (nextTimer st) (clock st)
          (cwd st) (tasks st) (console st) (trace st) (rejections st).
Definition set_nextTimer (v : nat) (st : State) : State :=
  mkState (building st) (buildQueue st) (timeout st) (timers st) v (clock st)
          (cwd st) (tasks st) (console st) (trace st) (rejections st).
Definition set_clock (v : Z) (st : State) : State :=
  mkState (building st) (buildQueue st) (timeout st) (timers st) (nextTimer st) v
          (cwd st) (tasks st) (console st) (trace st) (rejections st).
Definition chdir (v : string) (st : State) : State :=
  mkState (building st) (buildQueue st) (timeout st) (timers st) (nextTimer st) (clock st)
          v (tasks st) (console st) (trace st) (rejections st).
Definition set_tasks (v : list Task) (st : State) : State :=
  mkState (building st) (buildQueue st) (timeout st) (timers st) (nextTimer st) (clock st)
          (cwd st) v (console st) (trace st) (rejections st).
Definition log (l : Line) (st : State) : State :=
  mkState (building st) (buildQueue st) (timeout st) (timers st) (nextTimer st) (clock st)
          (cwd st) (tasks st) (console st ++ [l]) (trace st) (rejections st).
Definition observe (o : Obs) (st : State) : State :=
  mkState (building st) (buildQueue st) (timeout st) (timers st) (nextTimer st) (clock st)
          (cwd st) (tasks st) (console st) (trace st ++ [o]) (rejections st).
Definition reject (reason : string) (st : State) : State :=
  mkState (building st) (buildQueue st) (timeout st) (timers st) (nextTimer st) (clock st)
          (cwd st) (tasks st) (console st) (trace st) (rejections st ++ [reason]).


(** ** Timers of the runtime *)

Definition clearTimeout (h : option nat) (st : State) : State :=
  match h with
  | Some id => set_timers (delete id (timers st)) st
  | None => st
  end.

(** [setTimeout(later, wait)], [later] closing over [args]: the handle
    and the state with the timer armed. *)
Definition setTimeout (args : string) (wait : Z) (st : State) : nat * State :=
  let id := nextTimer st in
  (id, set_nextTimer (S id) (set_timers (<[id := (clock st + wait, args)]> (timers st)) st)).

(** ** debounce *)
Section Debounce.
Variable func : string → State → State.
Variable wait : Z.

(** [const later = () => { clearTimeout(timeout); func(...args) }] *)
Definition later (args : string) (st : State) : State :=
  func args (clearTimeout (timeout st) st).

(** [executedFunction(...args)] *)
Definition executedFunction (args : string) (st : State) : State :=
  let st1 := clearTimeout (timeout st) st in
  let '(id, st2) := setTimeout args wait st1 in
  set_timeout (Some id) st2.
End Debounce.

(** [debounce(func, wait)] returns [executedFunction]; the callback of the
    timer it arms is [later func args], which [fire] below runs. *)
Definition debounce (func : string → State → State) (wait : Z)
  : string → State → State :=
  executedFunction wait.

(** The outstanding invocations of [buildPackage] for a package. *)
Definition is_running (name : string) (t : Task) : bool :=
  match t_phase t with
  | Running => bool_decide (t_name t = name)
  | Settled _ => false
  end.

Definition outstanding (name : string) (st : State) : nat :=
  length (filter (λ t, is_running name t = true) (tasks st)).

Definition build_calls (st : State) : list (Z * string) :=
  omap (λ o, match o with BuildCall t n => Some (t, n) | _ => None end) (trace st).

Definition queue_calls (st : State) : list (Z * string) :=
  omap (λ o, match o with QueueBuildCall t n => Some (t, n) | _ => None end) (trace st).

(** ** Strings, as the build steps use them *)
Module Str.

(** [s.startsWith(pat)] *)
Fixpoint startsWith (pat s : string) : bool :=
  match pat, s with
  | EmptyString, _ => true
  | String a pat', String b s' => Ascii.eqb a b && startsWith pat' s'
  | String _ _, EmptyString => false
  end.

(** [s.includes(pat)] *)
Fixpoint includes (pat s : string) : bool :=
  startsWith pat s ||
  match s with
  | EmptyString => false
  | String _ s' => includes pat s'
  end.

(** [s.slice(n)] *)
Fixpoint skip (n : nat) (s : string) : string :=
  match n, s with
  | O, _ => s
  | S n', String _ s' => skip n' s'
  | S _, EmptyString => EmptyString
  end.

(** [s.replace(pat, rep)] for a string [pat] and a [rep] without [$]:
    the first occurrence of [pat] is replaced, the others are left. *)
Fixpoint replace (pat rep s : string) : string :=
  if startsWith pat s then rep +:+ skip (String.length pat) s
  else match s with
       | EmptyString => EmptyString
       | String a s' => String a (replace pat rep s')
       end.

(** A string has the character [c] in it. *)
Fixpoint has_char (c : ascii) (s : string) : bool :=
  match s with
  | EmptyString => false
  | String a s' => Ascii.eqb a c || has_char c s'
  end.

End Str.

(** ** The build steps inside [buildPackage]

    The pieces of the [try] body that compute, from what the calls to
    [vite], [svelte], [tsc] and the file system give back. *)

(** A value or a thrown [Error] with its message. *)
Inductive Result (A : Type) : Type :=
| Ok (a : A)
| Err (message : string).
Arguments Ok {A} a.
Arguments Err {A} message.

(** [dest] of a declaration file: [file.replace('/src', '')]. *)
Definition dts_dest (file : string) : string := Str.replace "/src" EmptyString file.

(** [dest] of a svelte file: [file.replace('src/', 'svelte/')]. *)
Definition svelte_dest (file : string) : string := Str.replace "src/" "svelte/" file.



Definition newline : ascii := "010"%char.

(** The patch of [svelte/index.js]:
    [js.split('\n').filter((line) => !line.includes('index.scss')).join('\n')] *)
Definition patch_index_js (js : string) : string :=
  Path.join newline
    (filter (λ line, Str.includes "index.scss" line = false) (Path.split newline js)).

(** *** The files of a package: path to content.  Directories are not
    kept: a path exists when a file is stored under it. *)
Module Fs.

Definition pathExists (p : string) (fs : gmap string string) : bool :=
  bool_decide (is_Some (fs !! p)).

(** [fs.remove(p)]: no error when there is nothing to remove. *)
Definition remove (p : string) (fs : gmap string string) : gmap string string :=
  delete p fs.

(** [fs.move(src, dest)] of fs-extra, without [overwrite]: it throws when
    [src] is missing and when [dest] exists. *)
Definition move (src dest : string) (fs : gmap string string)
  : Result (gmap string string) :=
  match fs !! src with
  | None => Err "ENOENT: no such file or directory"
  | Some content =>
      if pathExists dest fs then Err "dest already exists."
      else Ok (<[dest := content]> (delete src fs))
  end.

(** [fs.copy(src, dest, { overwrite: true })] *)
Definition copy_overwrite (src dest : string) (fs : gmap string string)
  : Result (gmap string string) :=
  match fs !! src with
  | None => Err "ENOENT: no such file or directory"
  | Some content => Ok (<[dest := content]> fs)
  end.

End Fs.

(** "processing style files (backward compatibility)": [dist/style.css]
    becomes [dist/index.css], which is copied to [dist/index.min.css]. *)
Definition process_style_files (fs : gmap string string) : Result (gmap string string) :=
  let moved :=
    if Fs.pathExists "dist/style.css" fs then
      let fs1 :=
        if Fs.pathExists "dist/index.css" fs then Fs.remove "dist/index.css" fs else fs in
      Fs.move "dist/style.css" "dist/index.css" fs1
    else Ok fs in
  match moved with
  | Err message => Err message
  | Ok fs2 =>
      if Fs.pathExists "dist/index.css" fs2 then
        Fs.copy_overwrite "dist/index.css" "dist/index.min.css" fs2
      else Ok fs2
  end.

(** *** What each format leaves out of the bundle *)

(** [package.json] of the package: its name and the keys of
    [peerDependencies] and [dependencies] in the order of the file (an
    absent field spreads to no key). *)
Record PackageJson := mkPackageJson {
  pkg_name : string;
  peerDependencies : list string;
  dependencies : list string
}.

(** [Object.keys({ ...a, ...b })]: the keys of [a], then those of [b] that
    [a] does not have.  The keys are package names: none is written like
    an array index, which [Object.keys] would list before the others. *)
Definition object_keys_spread (a b : list string) : list string :=
  a ++ filter (λ k, k ∉ a) b.

(** [const legacy = format === 'umd' || format === 'iife'] *)
Definition legacy (format : string) : bool :=
  bool_decide (format = "umd") || bool_decide (format = "iife").

(** The [.filter] of the cjs branch, over [node_modules]: a dependency
    maps to the [type] field of its [package.json] (if it has one), and
    is missing from the map when that file does not exist.  The callback
    throws on the first dependency that is not installed. *)
Fixpoint cjs_deps (node_modules : gmap string (option string)) (deps : list string)
  : Result (list string) :=
  match deps with
  | [] => Ok []
  | dep :: deps' =>
      match node_modules !! dep with
      | None => Err (dep +:+ " not exists, please install it")
      | Some pkgType =>
          match cjs_deps node_modules deps' with
          | Err message => Err message
          | Ok kept =>
              Ok (if decide (pkgType = Some "module") then kept else dep :: kept)
          end
      end
  end.

Definition externalDeps (node_modules : gmap string (option string))
    (pkg : PackageJson) (format : string) : Result (list string) :=
  if legacy format then Ok (peerDependencies pkg)
  else if decide (format = "es") then
    Ok (object_keys_spread (peerDependencies pkg) (dependencies pkg))
  else if decide (format = "cjs") then
    match cjs_deps node_modules (dependencies pkg) with
    | Err message => Err message
    | Ok deps => Ok (peerDependencies pkg ++ deps)
    end
  else Ok [].

(** An entry of [rollupOptions.external]: a dependency, or the pattern
    [new RegExp(`^${dep}\/`)] made from it. *)
Inductive External := Exactly (dep : string) | Under (dep : string).

(** The part of the argument of [build] that depends on the format and
    on the package; [root], [entry], [target], [fileName] and
    [emptyOutDir] are constants, [lib.name] is [camelCase(pkg.name)]. *)
Record BuildConfig := mkBuildConfig {
  bc_format : string;
  bc_minify : bool;
  bc_external : list External;
  bc_alias : list (string * string);
  bc_plugins : list string
}.

(** The plugins that are not [false]: the three tests are on the name of
    the package. *)
Definition plugins (name : string) : list string :=
  (if decide (name = "bytemd") then ["svelte"] else []) ++
  (if decide (name = "vue") then ["createVuePlugin"] else []) ++
  (if decide (name = "vue-next") then ["createVue3Plugin"] else []).

(** One round of [for (let format of ['es', 'cjs', 'umd'])] up to the call
    of [build]: [resolved] is what [resolve.sync] gives for
    [decode-named-character-reference]. *)
Definition build_config (node_modules : gmap string (option string))
    (resolved : Result string) (name : string) (pkg : PackageJson) (format : string)
  : Result BuildConfig :=
  match externalDeps node_modules pkg format with
  | Err message => Err message
  | Ok deps =>
      let alias := [("lowlight", "lowlight/lib/common")] in
      let alias' :=
        if decide (format = "cjs") then
          match resolved with
          | Err message => Err message
          | Ok path => Ok (alias ++ [("decode-named-character-reference", path)])
          end
        else Ok alias in
      match alias' with
      | Err message => Err message
      | Ok al =>
          Ok (mkBuildConfig format (legacy format)
                (map Exactly deps ++ map Under deps) al (plugins name))
      end
  end.

(** The loop over the formats: the configurations [build] was called
    with, and the error that ended the loop if there is one.  [vite]
    gives the error [build] throws on a configuration, if any. *)
Fixpoint build_formats (vite : BuildConfig → option string)
    (node_modules : gmap string (option string)) (resolved : Result string)
    (name : string) (pkg : PackageJson) (formats : list string)
  : list BuildConfig * option string :=
  match formats with
  | [] => ([], None)
  | format :: formats' =>
      match build_config node_modules resolved name pkg format with
      | Err message => ([], Some message)
      | Ok config =>
          match vite config with
          | Some message => ([config], Some message)
          | None =>
              let '(built, err) :=
                build_formats vite node_modules resolved name pkg formats' in
              (config :: built, err)
          end
      end
  end.

Definition formats : list string := ["es"; "cjs"; "umd"].

(** ** The plugins

    [gemoji] and [highlightSsr]: a plugin is a record of optional
    functions on a processor, a processor is the list of what was [use]d,
    in order. *)

(** The values an option can hold, as far as the default matters. *)
Inductive JsVal :=
| VUndefined
| VNull
| VBool (b : bool)
| VOther (repr : string).

Inductive Used :=
| RemarkGemoji
| RehypeHighlight (options : gmap string JsVal).

Record BytemdPlugin := mkPlugin {
  remark : option (list Used → list Used);
  rehype : option (list Used → list Used)
}.

(** [processor.use(x)] *)
Definition use (x : Used) (processor : list Used) : list Used := processor ++ [x].

Definition gemoji : BytemdPlugin :=
  mkPlugin (Some (λ processor, use RemarkGemoji processor)) None.

(** [highlightSsr({ ignoreMissing = true, ...rest } = {})]: the argument
    is [None] when it is left out or [undefined]. *)
Definition highlightSsr (arg : option (gmap string JsVal)) : BytemdPlugin :=
  let o := default ∅ arg in
  let ignoreMissing :=
    match o !! "ignoreMissing" with
    | None | Some VUndefined => VBool true
    | Some v => v
    end in
  let rest := delete "ignoreMissing" o in
  mkPlugin None
    (Some (λ processor,
             use (RehypeHighlight (<["ignoreMissing" := ignoreMissing]> rest)) processor)).

Section Script.
(** [packages] and [packagesDir] come from [./utils.mjs]; [cwd0] is the
    directory the script is started in. *)
Variable packages : list string.
Variable packagesDir : string.
Variable cwd0 : string.

(** [buildPackage(name)] up to its first [await]: the promise it returns
    is the task added, awaited by [k].  [process.chdir(root)] succeeds:
    the directories of the registry exist throughout the run. *)
Definition buildPackage (name : string) (k : Cont) (st : State) : State :=
  let st := observe (BuildCall (clock st) name) st in
  let st := log (LBuilding name) st in
  let root := Path.resolve packagesDir name in
  let originalCwd := cwd st in
  let st := chdir root st in
  set_tasks (tasks st ++ [mkTask name originalCwd k Running]) st.

(** [catch] and [finally] of [buildPackage], from the completion [c1] of
    the [try] block on.  [catch] prints the message of what was thrown;
    on [null] and [undefined] the argument [error.message] of
    [console.error] throws before anything is printed, and that
    [TypeError] leaves the function once [finally] has gone back to
    [originalCwd] (a directory that still exists).  The result is the
    settlement of the promise. *)
Definition buildPackage_handlers (t : Task) (c1 : Completion) (st1 : State)
  : Settlement * State :=
  let name := t_name t in
  (* catch (error) { console.error(..., error.message) } *)
  let '(c2, st2) :=
    match c1 with
    | Throw (WithMessage m) => (Normal, log (LError name m) st1)
    | Throw (Bare v) => (Throw (WithMessage (type_error v)), st1)
    | _ => (c1, st1)
    end in
  (* finally { process.chdir(originalCwd) } *)
  let st3 := chdir (t_originalCwd t) st2 in
  (match c2 with Throw e => Rejected (reason_of e) | _ => Fulfilled end, st3).

(** The rest of [buildPackage], from the end of the [try] body on, the
    body ending with [o]. *)
Definition buildPackage_settle (t : Task) (o : Outcome) (st : State)
  : Settlement * State :=
  let name := t_name t in
  (* try { ... console.log(`[✓] ${name} built successfully`) } *)
  let '(c1, st1) :=
    match o with
    | Built => (Normal, log (LBuilt name) st)
    | Threw m => (Throw (WithMessage m), st)
    | Returned => (Return, st)
    end in
  buildPackage_handlers t c1 st1.

(** The same with the body throwing [e], whatever [e] is. *)
Definition buildPackage_throw (t : Task) (e : Thrown) (st : State)
  : Settlement * State :=
  buildPackage_handlers t (Throw e) st.

(** [queueBuild(packageName)] up to its [await]. *)
Definition queueBuild (packageName : string) (st : State) : State :=
  let st := observe (QueueBuildCall (clock st) packageName) st in
  if decide (packageName ∈ building st) then
    set_buildQueue ({[packageName]} ∪ buildQueue st) st
  else
    buildPackage packageName KQueueBuild
      (set_building ({[packageName]} ∪ building st) st).

(** [queueBuild] after [await buildPackage(packageName)]. *)
Definition queueBuild_resume (packageName : string) (st : State) : State :=
  let st := set_building (building st ∖ {[packageName]}) st in
  if decide (packageName ∈ buildQueue st) then
    queueBuild packageName (set_buildQueue (buildQueue st ∖ {[packageName]}) st)
  else st.

(** [const debouncedBuild = debounce((packageName) => { queueBuild(packageName) }, 300)] *)
Definition debouncedBuild : string → State → State :=
  debounce (λ packageName, queueBuild packageName) 300.

(** [getPackageName(filePath)]: [parts[0]] always exists.  [filePath] is
    absolute, as chokidar reports the files of the absolute globs it is
    given, so [path.relative] does not depend on where the process is. *)
Definition getPackageName (filePath : string) : string :=
  let relativePath := Path.relative packagesDir filePath in
  let parts := Path.split Path.sep relativePath in
  hd EmptyString parts.

(** The handlers of ['change'], ['add'] and ['unlink']. *)
Definition on_watch (k : Kind) (filePath : string) (st : State) : State :=
  let packageName := getPackageName filePath in
  if decide (packageName ∈ packages) then
    debouncedBuild packageName (log (LFile k filePath) st)
  else st.

(** [for (const pkg of packages) { await buildPackage(pkg) }] and the
    line printed after it. *)
Definition initial_loop (rest : list string) (st : State) : State :=
  match rest with
  | [] => log LAllBuilt st
  | pkg :: rest' => buildPackage pkg (KInitial rest') st
  end.

Definition state0 : State :=
  mkState ∅ ∅ None ∅ 0%nat 0 cwd0 [] [] [] [].

(** The top level of the script up to its first [await]: the watcher is
    subscribed, then the initial loop starts. *)
Definition boot : State :=
  initial_loop packages (log LBuildingAll (log LWatching state0)).

(** The awaiter of a settled task goes on.  On a rejected promise the
    [await] throws: [queueBuild] stops before [building.delete] and its
    own promise, which nothing awaits or catches, is rejected; the top
    level stops in the loop.  Either way the rejection is unhandled. *)
Definition resume (t : Task) (s : Settlement) (st : State) : State :=
  match s with
  | Rejected reason => reject reason st
  | Fulfilled =>
      match t_cont t with
      | KQueueBuild => queueBuild_resume (t_name t) st
      | KInitial rest => initial_loop rest st
      end
  end.

(** ** Turns of the event loop *)
Inductive Event :=
| EWatch (k : Kind) (filePath : string)
| EWatchError (err : string)
| ETick (t : Z)
| ETimer (id : nat)
| ESettle (i : nat) (o : Outcome)
| EResume (i : nat).

Definition fire (id : nat) (st : State) : option State :=
  match timers st !! id with
  | Some (deadline, args) =>
      if decide (deadline ≤ clock st)%Z then
        Some (later queueBuild args (set_timers (delete id (timers st)) st))
      else None
  | None => None
  end.

Definition settle (i : nat) (o : Outcome) (st : State) : option State :=
  match tasks st !! i with
  | Some t =>
      match t_phase t with
      | Running =>
          let '(s, st') := buildPackage_settle t o st in
          let t' := mkTask (t_name t) (t_originalCwd t) (t_cont t) (Settled s) in
          Some (set_tasks (<[i := t']> (tasks st')) st')
      | Settled _ => None
      end
  | None => None
  end.

(** The turn in which the body of build [i] throws [e].  With a message
    this is the turn [ESettle i (Threw m)]; [null] and [undefined] are not
    among the outcomes of [Event]: the runs of [exec] are those in which
    the steps of the build throw [Error]s.  What the script does when one
    of them does not is told by this turn, followed by the resuming one. *)
Definition settle_thrown (i : nat) (e : Thrown) (st : State) : option State :=
  match tasks st !! i with
  | Some t =>
      match t_phase t with
      | Running =>
          let '(s, st') := buildPackage_throw t e st in
          let t' := mkTask (t_name t) (t_originalCwd t) (t_cont t) (Settled s) in
          Some (set_tasks (<[i := t']> (tasks st')) st')
      | Settled _ => None
      end
  | None => None
  end.

Definition resume_at (i : nat) (st : State) : option State :=
  match tasks st !! i with
  | Some t =>
      match t_phase t with
      | Settled s => Some (resume t s (set_tasks (delete i (tasks st)) st))
      | Running => None
      end
  | None => None
  end.

(** One turn; [None] when the event cannot happen in this state (a timer
    before its deadline, a clock going back, no such task). *)
Definition step (e : Event) (st : State) : option State :=
  match e with
  | EWatch k filePath => Some (on_watch k filePath st)
  | EWatchError err => Some (log (LWatchError err) st)
  | ETick t => if decide (clock st ≤ t)%Z then Some (set_clock t st) else None
  | ETimer id => fire id st
  | ESettle i o => settle i o st
  | EResume i => resume_at i st
  end.

Fixpoint exec (evs : list Event) (st : State) : option State :=
  match evs with
  | [] => Some st
  | e :: evs' =>
      match step e st with
      | Some st' => exec evs' st'
      | None => None
      end
  end.

(** ** Time passing

    [advance t]: the clock goes to [t] and the timers that come due on
    the way fire, each at its deadline, earliest first.  The callbacks
    of this script arm no timer, so as many rounds as there are timers
    armed at the start are enough (see [advance_no_due]). *)
Definition earlier (x y : nat * (Z * string)) : bool :=
  bool_decide (x.2.1 < y.2.1 ∨ (x.2.1 = y.2.1 ∧ (x.1 < y.1)%nat)).

Definition earliest (m : gmap nat (Z * string)) : option (nat * (Z * string)) :=
  foldr (λ x acc,
           match acc with
           | Some y => if earlier y x then Some y else Some x
           | None => Some x
           end) None (map_to_list m).

Fixpoint drain (fuel : nat) (t : Z) (st : State) : State :=
  match fuel with
  | O => st
  | S fuel' =>
      match earliest (timers st) with
      | Some (id, (deadline, _)) =>
          if decide (deadline ≤ t)%Z then
            match fire id (set_clock (Z.max (clock st) deadline) st) with
            | Some st' => drain fuel' t st'
            | None => st
            end
          else st
      | None => st
      end
  end.

Definition advance (t : Z) (st : State) : State :=
  let st' := drain (size (timers st)) t st in
  set_clock (Z.max (clock st') t) st'.







(** The turns of the initial build pass when nothing else happens: the
    build awaited by the loop ends with the next outcome, then the loop
    goes on. *)
Definition initial_pass (outcomes : list Outcome) : list Event :=
  flat_map (λ o, [ESettle 0 o; EResume 0]) outcomes.

(** ** Invariants of the states the script reaches *)

(** The only timer armed is the one [timeout] holds, and its handle has
    been handed out. *)
Definition timer_inv (st : State) : Prop :=
  ∀ id x, timers st !! id = Some x → timeout st = Some id ∧ (id < nextTimer st)%nat.

(** What is queued is being built. *)
Definition queue_inv (st : State) : Prop :=
  buildQueue st ⊆ building st.


(** The builds of [name] started by [queueBuild] and not resumed from. *)
Definition started_by_queue (name : string) (t : Task) : bool :=
  match t_cont t with
  | KQueueBuild => bool_decide (t_name t = name)
  | KInitial _ => false
  end.

Definition queue_builds (name : string) (st : State) : nat :=
  length (filter (λ t, started_by_queue name t = true) (tasks st)).

(** [building] holds exactly the packages [queueBuild] has a build for. *)
Definition track_inv (st : State) : Prop :=
  ∀ name, queue_builds name st = if decide (name ∈ building st) then 1%nat else 0%nat.

(** No promise of [buildPackage] is rejected, nothing was left unhandled. *)
Definition promise_inv (st : State) : Prop :=
  rejections st = [] ∧
  ∀ t, t ∈ tasks st → t_phase t = Running ∨ t_phase t = Settled Fulfilled.

(** ** Package roots *)

(** [filePath] lies in the directory [root] (or is [root]). *)
Definition inside (root filePath : string) : Prop :=
  Path.segments root `prefix_of` Path.segments filePath.

(** A package name is the name of a directory under [packagesDir]: one path
    segment, not empty, not ["."] and not [".."]. *)
Fixpoint has_sep (s : string) : bool :=
  match s with
  | EmptyString => false
  | String a s' => Ascii.eqb a Path.sep || has_sep s'
  end.

Definition plain (name : string) : Prop :=
  has_sep name = false ∧ name ≠ EmptyString ∧ name ≠ "." ∧ name ≠ "..".

(** ** Which packages, which directories *)

Definition obs_name (o : Obs) : string :=
  match o with
  | QueueBuildCall _ name => name
  | BuildCall _ name => name
  end.

(** The directory the script was started in, and the package roots. *)
Definition place (d : string) : Prop :=
  d = cwd0 ∨ ∃ pkg, pkg ∈ packages ∧ d = Path.resolve packagesDir pkg.

(** Everything the scheduler holds is about packages of the registry, and
    every directory it remembers is a [place]. *)
Definition registered_inv (st : State) : Prop :=
  (∀ n, n ∈ building st → n ∈ packages) ∧
  (∀ n, n ∈ buildQueue st → n ∈ packages) ∧
  (∀ id d a, timers st !! id = Some (d, a) → a ∈ packages) ∧
  (∀ t, t ∈ tasks st →
        t_name t ∈ packages ∧ place (t_originalCwd t) ∧
        match t_cont t with
        | KInitial rest => ∀ n, n ∈ rest → n ∈ packages
        | KQueueBuild => True
        end) ∧
  (∀ o, o ∈ trace st → obs_name o ∈ packages) ∧
  place (cwd st).

(** The initial pass is over: no build of it is left. *)
Definition pass_over (st : State) : Prop :=
  ∀ t, t ∈ tasks st → t_cont t = KQueueBuild.

(** ** Paths: splitting, joining, segments *)

Lemma split_nonempty c s : Path.split c s ≠ [].
Proof.
  destruct s as [|a s]; simpl; [done|].
  destruct (Ascii.eqb a c); [done|].
  destruct (Path.split c s); done.
Qed.

Lemma split_plain w : has_sep w = false → Path.split Path.sep w = [w].
Proof.
  induction w as [|a w IH]; simpl; [done|].
  intros [Ha Hw]%orb_false_iff. rewrite Ha, (IH Hw). done.
Qed.

Lemma split_app_sep w s :
  has_sep w = false →
  Path.split Path.sep (w +:+ String Path.sep s) = w :: Path.split Path.sep s.
Proof.
  induction w as [|a w IH]; simpl.
  - intros _. done.
  - intros [Ha Hw]%orb_false_iff. rewrite Ha, (IH Hw). done.
Qed.

Lemma split_no_sep s : Forall (λ w, has_sep w = false) (Path.split Path.sep s).
Proof.
  induction s as [|a s IH]; simpl.
  - by constructor.
  - destruct (Ascii.eqb a Path.sep) eqn:Ha.
    + by constructor.
    + destruct (Path.split Path.sep s) as [|w ws].
      * constructor; [|done]. simpl. by rewrite Ha.
      * inversion IH; subst. constructor; [|done]. simpl. by rewrite Ha.
Qed.

Lemma split_join l :
  l ≠ [] → Forall (λ w, has_sep w = false) l →
  Path.split Path.sep (Path.join Path.sep l) = l.
Proof.
  induction l as [|w ws IH]; [done|].
  intros _ Hl. inversion Hl as [|? ? Hw Hws]; subst.
  destruct ws as [|w' ws].
  - simpl. by apply split_plain.
  - change (Path.join Path.sep (w :: w' :: ws))
      with (w +:+ String Path.sep (Path.join Path.sep (w' :: ws))).
    rewrite split_app_sep by done. f_equal. by apply IH.
Qed.

Lemma plain_no_sep l : Forall plain l → Forall (λ w, has_sep w = false) l.
Proof. intros H. eapply Forall_impl; [exact H|]. by intros w [? _]. Qed.

Lemma norm_step_plain acc seg :
  Forall plain acc → has_sep seg = false → Forall plain (Path.norm_step acc seg).
Proof.
  intros Hacc Hseg. unfold Path.norm_step.
  destruct (decide (seg = EmptyString ∨ seg = ".")) as [|Hn]; [done|].
  destruct (decide (seg = "..")) as [|Hn'].
  - destruct acc; [done|]. simpl. by inversion Hacc.
  - constructor; [|done]. repeat split; naive_solver.
Qed.

Lemma foldl_norm_plain acc l :
  Forall plain acc → Forall (λ w, has_sep w = false) l →
  Forall plain (foldl Path.norm_step acc l).
Proof.
  revert acc. induction l as [|w l IH]; intros acc Hacc Hl; simpl; [done|].
  inversion Hl; subst. apply IH; [|done]. by apply norm_step_plain.
Qed.

Lemma segments_plain p : Forall plain (Path.segments p).
Proof.
  unfold Path.segments. rewrite Forall_reverse.
  apply foldl_norm_plain; [done|apply split_no_sep].
Qed.

Lemma foldl_norm_of_plain acc l :
  Forall plain l → foldl Path.norm_step acc l = reverse l ++ acc.
Proof.
  revert acc. induction l as [|w l IH]; intros acc Hl; [done|].
  inversion Hl as [|? ? (_ & H1 & H2 & H3) Hl']; subst. simpl.
  rewrite IH by done. rewrite reverse_cons, <- app_assoc. f_equal.
  unfold Path.norm_step.
  destruct (decide (w = EmptyString ∨ w = ".")) as [[?|?]|_]; [done|done|].
  destruct (decide (w = "..")); done.
Qed.

Lemma segments_of_segments l :
  Forall plain l → Path.segments (Path.of_segments l) = l.
Proof.
  intros Hl. unfold Path.segments, Path.of_segments.
  change (Path.split Path.sep (String Path.sep (Path.join Path.sep l)))
    with (EmptyString :: Path.split Path.sep (Path.join Path.sep l)).
  destruct l as [|w ws]; [done|].
  rewrite split_join by (done || by apply plain_no_sep).
  change (foldl Path.norm_step [] (EmptyString :: w :: ws))
    with (foldl Path.norm_step [] (w :: ws)).
  rewrite foldl_norm_of_plain by done.
  by rewrite app_nil_r, reverse_involutive.
Qed.

Lemma segments_resolve dir name :
  plain name → Path.segments (Path.resolve dir name) = Path.segments dir ++ [name].
Proof.
  intros Hname. unfold Path.resolve.
  assert (Hseg : reverse (foldl Path.norm_step []
                   (Path.split Path.sep dir ++ Path.split Path.sep name))
                 = Path.segments dir ++ [name]).
  { rewrite foldl_app, (split_plain name) by apply Hname.
    rewrite (foldl_norm_of_plain _ [name]) by (by constructor).
    simpl. by rewrite reverse_cons. }
  rewrite Hseg. apply segments_of_segments.
  apply Forall_app; split; [apply segments_plain|by constructor].
Qed.

Lemma strip_common_spec from to :
  ∃ common, from = common ++ (Path.strip_common from to).1 ∧
            to = common ++ (Path.strip_common from to).2 ∧
            match (Path.strip_common from to).1, (Path.strip_common from to).2 with
            | u :: _, d :: _ => u ≠ d
            | _, _ => True
            end.
Proof.
  revert to. induction from as [|f from IH]; intros to.
  - exists []. by destruct to.
  - destruct to as [|t to]; [by exists []|]. simpl.
    destruct (decide (f = t)) as [->|Hne].
    + destruct (IH to) as (common & H1 & H2 & H3).
      exists (t :: common). simpl. by rewrite <- H1, <- H2.
    + by exists [].
Qed.

Lemma strip_common_app from rest :
  Path.strip_common from (from ++ rest) = ([], rest).
Proof.
  induction from as [|f from IH]; simpl.
  - by destruct rest.
  - by rewrite decide_True.
Qed.

(** What [getPackageName] returns, by the position of [filePath]
    relative to [packagesDir]. *)
Lemma getPackageName_spec filePath :
  getPackageName filePath =
    match Path.strip_common (Path.segments packagesDir) (Path.segments filePath) with
    | ([], []) => EmptyString
    | ([], d :: _) => d
    | (_ :: _, _) => ".."
    end.
Proof.
  unfold getPackageName, Path.relative.
  destruct (strip_common_spec (Path.segments packagesDir) (Path.segments filePath))
    as (common & _ & Hto & _).
  destruct (Path.strip_common _ _) as [up down]; simpl in Hto.
  assert (Hdown : Forall (λ w, has_sep w = false) down).
  { apply plain_no_sep. pose proof (segments_plain filePath) as H.
    rewrite Hto in H. by apply Forall_app in H as [_ ?]. }
  destruct up as [|u up].
  - destruct down as [|d down]; [done|].
    simpl map. rewrite app_nil_l, split_join by done. done.
  - rewrite split_join; [done|done|].
    simpl map. constructor; [done|].
    apply Forall_app; split; [|done].
    apply Forall_fmap. by apply Forall_true.
Qed.

Lemma getPackageName_inside pkg filePath :
  plain pkg → inside (Path.resolve packagesDir pkg) filePath →
  getPackageName filePath = pkg.
Proof.
  intros Hpkg [rest Hin]. rewrite segments_resolve in Hin by done.
  rewrite getPackageName_spec, Hin, <- app_assoc, strip_common_app. done.
Qed.

Lemma getPackageName_outside filePath :
  Forall plain packages →
  (∀ pkg, pkg ∈ packages → ¬ inside (Path.resolve packagesDir pkg) filePath) →
  getPackageName filePath ∉ packages.
Proof.
  intros Hplain Hout Hin.
  assert (Hp : plain (getPackageName filePath)).
  { rewrite Forall_forall in Hplain. by apply Hplain. }
  apply (Hout _ Hin). unfold inside. rewrite segments_resolve by done.
  rewrite getPackageName_spec in Hp |- *.
  destruct (strip_common_spec (Path.segments packagesDir) (Path.segments filePath))
    as (common & Hfrom & Hto & _).
  destruct (Path.strip_common _ _) as [[|u up] [|d down]]; simpl in *.
  - by destruct Hp as (_ & ? & _).
  - rewrite app_nil_r in Hfrom. subst common. rewrite Hto.
    exists down. by rewrite <- app_assoc.
  - by destruct Hp as (_ & _ & _ & ?).
  - by destruct Hp as (_ & _ & _ & ?).
Qed.

(** ** What the operations leave alone *)

Lemma buildPackage_fields name k st :
  let st' := buildPackage name k st in
  building st' = building st ∧ buildQueue st' = buildQueue st ∧
  timeout st' = timeout st ∧ timers st' = timers st ∧
  nextTimer st' = nextTimer st ∧ clock st' = clock st ∧
  rejections st' = rejections st ∧
  tasks st' = tasks st ++ [mkTask name (cwd st) k Running] ∧
  trace st' = trace st ++ [BuildCall (clock st) name] ∧
  console st' = console st ++ [LBuilding name] ∧
  cwd st' = Path.resolve packagesDir name.
Proof. by repeat split. Qed.

Lemma queueBuild_busy name st :
  name ∈ building st →
  queueBuild name st =
    set_buildQueue ({[name]} ∪ buildQueue st)
      (observe (QueueBuildCall (clock st) name) st).
Proof. intros Hin. unfold queueBuild. simpl. by rewrite decide_True. Qed.

Lemma queueBuild_idle name st :
  name ∉ building st →
  queueBuild name st =
    buildPackage name KQueueBuild
      (set_building ({[name]} ∪ building st)
         (observe (QueueBuildCall (clock st) name) st)).
Proof. intros Hin. unfold queueBuild. simpl. by rewrite decide_False. Qed.

Lemma queueBuild_frame name st :
  let st' := queueBuild name st in
  timeout st' = timeout st ∧ timers st' = timers st ∧
  nextTimer st' = nextTimer st ∧ clock st' = clock st ∧
  rejections st' = rejections st.
Proof.
  destruct (decide (name ∈ building st)) as [Hin|Hin].
  - by rewrite queueBuild_busy.
  - by rewrite queueBuild_idle.
Qed.

Lemma queueBuild_resume_frame name st :
  let st' := queueBuild_resume name st in
  timeout st' = timeout st ∧ timers st' = timers st ∧
  nextTimer st' = nextTimer st ∧ clock st' = clock st ∧
  rejections st' = rejections st.
Proof.
  unfold queueBuild_resume. simpl. case_decide; [|done].
  apply (queueBuild_frame name
           (set_buildQueue _ (set_building (building st ∖ {[name]}) st))).
Qed.

Lemma initial_loop_frame rest st :
  let st' := initial_loop rest st in
  building st' = building st ∧ buildQueue st' = buildQueue st ∧
  timeout st' = timeout st ∧ timers st' = timers st ∧
  nextTimer st' = nextTimer st ∧ clock st' = clock st ∧
  rejections st' = rejections st.
Proof. by destruct rest. Qed.

Lemma settle_fulfilled t o st : (buildPackage_settle t o st).1 = Fulfilled.
Proof. by destruct o. Qed.

Lemma settle_fields t o st :
  let st' := (buildPackage_settle t o st).2 in
  building st' = building st ∧ buildQueue st' = buildQueue st ∧
  timeout st' = timeout st ∧ timers st' = timers st ∧
  nextTimer st' = nextTimer st ∧ clock st' = clock st ∧
  rejections st' = rejections st ∧ tasks st' = tasks st ∧
  trace st' = trace st ∧ cwd st' = t_originalCwd t.
Proof. by destruct o. Qed.

(** ** The invariants hold along every run *)

Lemma exec_inv (P : State → Prop) :
  (∀ e st st', P st → step e st = Some st' → P st') →
  ∀ evs st st', P st → exec evs st = Some st' → P st'.
Proof.
  intros Hstep evs. induction evs as [|e evs IH]; intros st st' HP Hex; simpl in Hex.
  - by injection Hex as <-.
  - destruct (step e st) as [st1|] eqn:He; [|done]. eauto.
Qed.

Lemma executedFunction_timers wait args st :
  timer_inv st →
  timers (executedFunction wait args st) = {[nextTimer st := (clock st + wait, args)]} ∧
  timeout (executedFunction wait args st) = Some (nextTimer st).
Proof.
  intros Hinv. unfold executedFunction, clearTimeout.
  destruct (timeout st) as [h|] eqn:Hh; simpl; (split; [|done]).
  - apply map_eq. intros i.
    destruct (decide (i = nextTimer st)) as [->|Hne].
    + by rewrite lookup_insert_eq, lookup_singleton_eq.
    + rewrite lookup_insert_ne, lookup_singleton_ne by done.
      destruct (decide (i = h)) as [->|Hne']; [by rewrite lookup_delete_eq|].
      rewrite lookup_delete_ne by done.
      destruct (timers st !! i) eqn:Hi; [|done].
      apply Hinv in Hi as [Hi _]. congruence.
  - apply map_eq. intros i.
    destruct (decide (i = nextTimer st)) as [->|Hne].
    + by rewrite lookup_insert_eq, lookup_singleton_eq.
    + rewrite lookup_insert_ne, lookup_singleton_ne by done.
      destruct (timers st !! i) eqn:Hi; [|done].
      apply Hinv in Hi as [Hi _]. congruence.
Qed.

Lemma timer_inv_step e st st' : timer_inv st → step e st = Some st' → timer_inv st'.
Proof.
  intros Hinv He. destruct e as [k p|err|t|id|i o|i]; simpl in He.
  - injection He as <-. unfold on_watch. case_decide; [|done].
    unfold debouncedBuild, debounce.
    destruct (executedFunction_timers 300 (getPackageName p) (log (LFile k p) st))
      as [Ht Hh]; [done|].
    intros id x. rewrite Ht, Hh. intros [<- _]%lookup_singleton_Some.
    split; [done|]. unfold executedFunction, clearTimeout. simpl.
    destruct (timeout st); simpl; lia.
  - by injection He as <-.
  - case_decide; [|done]. by injection He as <-.
  - unfold fire in He. destruct (timers st !! id) as [[d a]|] eqn:Hid; [|done].
    case_decide; [|done]. injection He as <-.
    unfold later, timer_inv.
    destruct (queueBuild_frame a
                (clearTimeout (timeout (set_timers (delete id (timers st)) st))
                   (set_timers (delete id (timers st)) st))) as (Hh' & Ht' & _).
    rewrite Hh', Ht'.
    destruct (queueBuild_frame a
                (clearTimeout (timeout (set_timers (delete id (timers st)) st))
                   (set_timers (delete id (timers st)) st))) as (_ & _ & Hn' & _).
    rewrite Hn'.
    apply Hinv in Hid as Hh. destruct Hh as [Hh _]. simpl. rewrite Hh. simpl.
    intros j x. rewrite lookup_delete_Some. intros [_ [_ Hj]%lookup_delete_Some].
    by apply Hinv in Hj.
  - unfold settle in He. destruct (tasks st !! i) as [t|]; [|done].
    destruct (t_phase t); [|done].
    pose proof (settle_fields t o st) as (_ & _ & Hh & Ht & Hn & _).
    destruct (buildPackage_settle t o st) as [s st1]. injection He as <-.
    simpl in *. unfold timer_inv. simpl. by rewrite Hh, Ht, Hn.
  - unfold resume_at in He. destruct (tasks st !! i) as [t|]; [|done].
    destruct (t_phase t) as [|s]; [done|]. injection He as <-.
    unfold resume. destruct s; [|done].
    destruct (t_cont t) as [|rest].
    + destruct (queueBuild_resume_frame (t_name t) (set_tasks (delete i (tasks st)) st))
        as (Hh & Ht & Hn & _).
      unfold timer_inv. by rewrite Hh, Ht, Hn.
    + destruct (initial_loop_frame rest (set_tasks (delete i (tasks st)) st))
        as (_ & _ & Hh & Ht & Hn & _).
      unfold timer_inv. by rewrite Hh, Ht, Hn.
Qed.

Lemma queueBuild_queue_inv name st : queue_inv st → queue_inv (queueBuild name st).
Proof.
  unfold queue_inv. intros Hinv.
  destruct (decide (name ∈ building st)) as [Hin|Hin].
  - rewrite queueBuild_busy by done. simpl. set_solver.
  - rewrite queueBuild_idle by done. simpl. set_solver.
Qed.

Lemma queueBuild_resume_queue name st :
  queue_inv st →
  queue_inv (queueBuild_resume name st) ∧ name ∉ buildQueue (queueBuild_resume name st).
Proof.
  unfold queue_inv, queueBuild_resume. simpl. intros Hinv.
  case_decide as Hq.
  - rewrite queueBuild_idle by (simpl; set_solver). simpl. set_solver.
  - simpl. set_solver.
Qed.

Lemma queue_inv_step e st st' : queue_inv st → step e st = Some st' → queue_inv st'.
Proof.
  intros Hinv He. destruct e as [k p|err|t|id|i o|i]; simpl in He.
  - injection He as <-. unfold on_watch. case_decide; [|done].
    unfold debouncedBuild, debounce, executedFunction, clearTimeout.
    by destruct (timeout _).
  - by injection He as <-.
  - case_decide; [|done]. by injection He as <-.
  - unfold fire in He. destruct (timers st !! id) as [[d a]|]; [|done].
    case_decide; [|done]. injection He as <-.
    unfold later, clearTimeout. apply queueBuild_queue_inv.
    by destruct (timeout _).
  - unfold settle in He. destruct (tasks st !! i) as [t|]; [|done].
    destruct (t_phase t); [|done].
    pose proof (settle_fields t o st) as (Hb & Hq & _).
    destruct (buildPackage_settle t o st) as [s st1]. injection He as <-.
    unfold queue_inv in *. simpl in *. by rewrite Hb, Hq.
  - unfold resume_at in He. destruct (tasks st !! i) as [t|]; [|done].
    destruct (t_phase t) as [|s]; [done|]. injection He as <-.
    unfold resume. destruct s; [|done].
    destruct (t_cont t) as [|rest].
    + by apply queueBuild_resume_queue.
    + destruct (initial_loop_frame rest (set_tasks (delete i (tasks st)) st))
        as (Hb & Hq & _).
      unfold queue_inv. by rewrite Hb, Hq.
Qed.

Lemma queueBuild_tasks name st :
  (name ∈ building st ∧ tasks (queueBuild name st) = tasks st) ∨
  ((name ∉ building st) ∧
   tasks (queueBuild name st) = tasks st ++ [mkTask name (cwd st) KQueueBuild Running]).
Proof.
  destruct (decide (name ∈ building st)) as [Hin|Hin].
  - left. by rewrite queueBuild_busy.
  - right. by rewrite queueBuild_idle.
Qed.

Lemma queueBuild_promise_inv name st : promise_inv st → promise_inv (queueBuild name st).
Proof.
  intros [Hr Ht]. split.
  - by destruct (queueBuild_frame name st) as (_ & _ & _ & _ & ->).
  - intros t. destruct (queueBuild_tasks name st) as [[_ ->]|[_ ->]]; [apply Ht|].
    intros [?|Heq]%elem_of_app; [by apply Ht|].
    apply list_elem_of_singleton in Heq as ->. by left.
Qed.

Lemma initial_loop_promise_inv rest st : promise_inv st → promise_inv (initial_loop rest st).
Proof.
  intros [Hr Ht]. destruct rest as [|pkg rest]; [done|]. split; [done|].
  intros t. simpl.
  intros [?|Heq]%elem_of_app; [by apply Ht|].
  apply list_elem_of_singleton in Heq as ->. by left.
Qed.

Lemma promise_inv_delete i st : promise_inv st → promise_inv (set_tasks (delete i (tasks st)) st).
Proof.
  intros [Hr Ht]. split; [done|]. intros t Hin. apply Ht. simpl in Hin.
  by eapply list_elem_of_delete_inv.
Qed.

Lemma promise_inv_step e st st' : promise_inv st → step e st = Some st' → promise_inv st'.
Proof.
  intros Hinv He. destruct e as [k p|err|t|id|i o|i]; simpl in He.
  - injection He as <-. unfold on_watch. case_decide; [|done].
    unfold debouncedBuild, debounce, executedFunction, clearTimeout.
    by destruct (timeout _).
  - by injection He as <-.
  - case_decide; [|done]. by injection He as <-.
  - unfold fire in He. destruct (timers st !! id) as [[d a]|]; [|done].
    case_decide; [|done]. injection He as <-.
    unfold later, clearTimeout. apply queueBuild_promise_inv.
    by destruct (timeout _).
  - unfold settle in He. destruct (tasks st !! i) as [t|] eqn:Hi; [|done].
    destruct (t_phase t); [|done].
    pose proof (settle_fields t o st) as (_ & _ & _ & _ & _ & _ & Hr & Ht & _).
    pose proof (settle_fulfilled t o st) as Hs.
    destruct (buildPackage_settle t o st) as [s st1]. injection He as <-.
    simpl in *. subst s. destruct Hinv as [Hr' Ht']. split; [simpl; congruence|].
    simpl. rewrite Ht. intros t' Hin.
    apply list_elem_of_lookup in Hin as [j Hj].
    destruct (decide (i = j)) as [->|Hne].
    + rewrite list_lookup_insert_eq in Hj by (by eapply lookup_lt_Some).
      injection Hj as <-. by right.
    + rewrite list_lookup_insert_ne in Hj by done.
      apply Ht', list_elem_of_lookup. eauto.
  - unfold resume_at in He. destruct (tasks st !! i) as [t|] eqn:Hi; [|done].
    destruct (t_phase t) as [|s] eqn:Hp; [done|]. injection He as <-.
    assert (s = Fulfilled) as ->.
    { destruct Hinv as [_ Ht]. destruct (Ht t) as [H|H].
      - apply list_elem_of_lookup. eauto.
      - congruence.
      - congruence. }
    simpl. apply (promise_inv_delete i) in Hinv.
    destruct (t_cont t) as [|rest].
    + unfold queueBuild_resume. simpl. case_decide.
      * by apply queueBuild_promise_inv.
      * done.
    + by apply initial_loop_promise_inv.
Qed.

Lemma boot_timer_inv : timer_inv boot.
Proof.
  intros id x. unfold boot.
  destruct (initial_loop_frame packages (log LBuildingAll (log LWatching state0)))
    as (_ & _ & _ & -> & _). done.
Qed.

Lemma boot_queue_inv : queue_inv boot.
Proof.
  unfold queue_inv, boot.
  destruct (initial_loop_frame packages (log LBuildingAll (log LWatching state0)))
    as (_ & -> & _). done.
Qed.

Lemma boot_promise_inv : promise_inv boot.
Proof. apply initial_loop_promise_inv. split; [done|]. by intros t ?%elem_of_nil. Qed.

Lemma reachable_inv evs st :
  exec evs boot = Some st → timer_inv st ∧ queue_inv st ∧ promise_inv st.
Proof.
  intros Hex. split; [|split].
  - revert Hex. apply (exec_inv timer_inv timer_inv_step), boot_timer_inv.
  - revert Hex. apply (exec_inv queue_inv queue_inv_step), boot_queue_inv.
  - revert Hex. apply (exec_inv promise_inv promise_inv_step), boot_promise_inv.
Qed.




(** ** Builds started by [queueBuild] do not overlap *)

Lemma count_delete {A} (P : A → Prop) `{∀ x, Decision (P x)} (l : list A) i x :
  l !! i = Some x →
  (length (filter P (delete i l)) + (if decide (P x) then 1 else 0))%nat
  = length (filter P l).
Proof.
  revert i. induction l as [|y l IH]; intros [|i] Hi; simpl in *; try done.
  - injection Hi as ->. rewrite filter_cons. case_decide; simpl; lia.
  - rewrite !filter_cons. specialize (IH i Hi).
    destruct (decide (P y)); simpl; lia.
Qed.

Lemma count_insert {A} (P : A → Prop) `{∀ x, Decision (P x)} (l : list A) i x y :
  l !! i = Some x → (P x ↔ P y) →
  length (filter P (<[i := y]> l)) = length (filter P l).
Proof.
  revert i. induction l as [|z l IH]; intros [|i] Hi Hxy; simpl in *; try done.
  - injection Hi as ->. rewrite !filter_cons.
    destruct (decide (P y)), (decide (P x)); simpl; tauto || done.
  - rewrite !filter_cons. specialize (IH i Hi Hxy).
    destruct (decide (P z)); simpl; lia.
Qed.

Lemma queue_builds_app name st t :
  queue_builds name (set_tasks (tasks st ++ [t]) st)
  = (queue_builds name st + (if started_by_queue name t then 1 else 0))%nat.
Proof.
  unfold queue_builds. simpl. rewrite filter_app, length_app. f_equal.
  rewrite filter_cons, filter_nil. by destruct (started_by_queue name t).
Qed.

Lemma queueBuild_track name st : track_inv st → track_inv (queueBuild name st).
Proof.
  intros Hinv n. specialize (Hinv n).
  destruct (decide (name ∈ building st)) as [Hin|Hin].
  - by rewrite queueBuild_busy.
  - rewrite queueBuild_idle by done.
    change (queue_builds n (buildPackage name KQueueBuild ?s))
      with (queue_builds n (set_tasks (tasks st ++ [mkTask name (cwd st) KQueueBuild Running]) st)).
    rewrite queue_builds_app, Hinv. simpl. unfold started_by_queue. simpl.
    destruct (decide (name = n)) as [->|Hne].
    + rewrite bool_decide_eq_true_2, decide_False, decide_True by set_solver. done.
    + rewrite bool_decide_eq_false_2 by done.
      destruct (decide (n ∈ building st)).
      * rewrite decide_True by set_solver. done.
      * rewrite decide_False by set_solver. done.
Qed.

Lemma track_inv_step e st st' :
  promise_inv st → track_inv st → step e st = Some st' → track_inv st'.
Proof.
  intros Hp Hinv He. destruct e as [k p|err|t|id|i o|i]; simpl in He.
  - injection He as <-. unfold on_watch. case_decide; [|done].
    unfold debouncedBuild, debounce, executedFunction, clearTimeout.
    by destruct (timeout _).
  - by injection He as <-.
  - case_decide; [|done]. by injection He as <-.
  - unfold fire in He. destruct (timers st !! id) as [[d a]|]; [|done].
    case_decide; [|done]. injection He as <-.
    unfold later, clearTimeout. apply queueBuild_track.
    by destruct (timeout _).
  - unfold settle in He. destruct (tasks st !! i) as [t|] eqn:Hi; [|done].
    destruct (t_phase t); [|done].
    pose proof (settle_fields t o st) as (Hb & _ & _ & _ & _ & _ & _ & Ht & _).
    destruct (buildPackage_settle t o st) as [s st1]. injection He as <-.
    simpl in *. intros n. specialize (Hinv n). unfold queue_builds in *. simpl.
    rewrite Hb, Ht. rewrite (count_insert _ _ i t); done.
  - unfold resume_at in He. destruct (tasks st !! i) as [t|] eqn:Hi; [|done].
    destruct (t_phase t) as [|s] eqn:Hph; [done|]. injection He as <-.
    assert (s = Fulfilled) as ->.
    { destruct Hp as [_ Ht]. destruct (Ht t) as [H|H].
      - apply list_elem_of_lookup. eauto.
      - congruence.
      - congruence. }
    simpl.
    assert (Hdel : ∀ n, (queue_builds n (set_tasks (delete i (tasks st)) st)
                         + (if started_by_queue n t then 1 else 0))%nat
                        = queue_builds n st).
    { intros n. unfold queue_builds. simpl.
      rewrite <- (count_delete _ (tasks st) i t Hi).
      f_equal. destruct (started_by_queue n t); by case_decide. }
    destruct (t_cont t) as [|rest] eqn:Hk.
    + set (st0 := set_building (building st ∖ {[t_name t]})
                    (set_tasks (delete i (tasks st)) st)).
      assert (H0 : track_inv st0).
      { intros n. specialize (Hdel n). specialize (Hinv n).
        change (queue_builds n st0) with (queue_builds n (set_tasks (delete i (tasks st)) st)).
        unfold started_by_queue in Hdel. rewrite Hk in Hdel. simpl.
        destruct (decide (t_name t = n)) as [Heq|Hne].
        - rewrite bool_decide_eq_true_2 in Hdel by done.
          rewrite decide_False by set_solver.
          destruct (decide (n ∈ building st)); lia.
        - rewrite bool_decide_eq_false_2 in Hdel by done.
          destruct (decide (n ∈ building st)).
          + rewrite decide_True by set_solver. lia.
          + rewrite decide_False by set_solver. lia. }
      unfold queueBuild_resume. fold st0. case_decide; [|done].
      apply queueBuild_track. done.
    + intros n. specialize (Hdel n). specialize (Hinv n).
      unfold started_by_queue in Hdel. rewrite Hk in Hdel.
      destruct rest as [|pkg rest].
      * change (queue_builds n (initial_loop [] ?s))
          with (queue_builds n (set_tasks (delete i (tasks st)) st)).
        simpl. lia.
      * change (queue_builds n (initial_loop (pkg :: rest) ?s))
          with (queue_builds n
                  (set_tasks (tasks (set_tasks (delete i (tasks st)) st)
                              ++ [mkTask pkg (cwd st) (KInitial rest) Running])
                     (set_tasks (delete i (tasks st)) st))).
        rewrite queue_builds_app. simpl. lia.
Qed.

Lemma boot_track_inv : track_inv boot.
Proof.
  intros n. unfold boot. destruct packages as [|pkg rest]; [done|].
  change (queue_builds n (initial_loop (pkg :: rest) ?s))
    with (queue_builds n
            (set_tasks (tasks s ++ [mkTask pkg (cwd s) (KInitial rest) Running]) s)).
  rewrite queue_builds_app. done.
Qed.


(** ** Requests while a build is in flight *)

Lemma delete_insert_same {A} (l : list A) i x : delete i (<[i := x]> l) = delete i l.
Proof.
  revert i. induction l as [|y l IH]; intros [|i]; simpl; [done..|].
  by rewrite IH.
Qed.





(** ** The debouncer *)

Lemma timer_inv_cases st :
  timer_inv st →
  timers st = ∅ ∨ ∃ h x, timeout st = Some h ∧ timers st = {[h := x]}.
Proof.
  intros Hinv. destruct (timeout st) as [h|] eqn:Hh.
  - destruct (timers st !! h) as [x|] eqn:Hx.
    + right. exists h, x. split; [done|]. apply map_eq. intros i.
      destruct (decide (i = h)) as [->|Hne].
      * by rewrite lookup_singleton_eq.
      * rewrite lookup_singleton_ne by done.
        destruct (timers st !! i) eqn:Hi; [|done].
        apply Hinv in Hi as [Hi _]. congruence.
    + left. apply map_empty. intros i.
      destruct (timers st !! i) eqn:Hi; [|done].
      pose proof (Hinv _ _ Hi) as [Hi' _]. congruence.
  - left. apply map_empty. intros i.
    destruct (timers st !! i) eqn:Hi; [|done].
    apply Hinv in Hi as [Hi _]. congruence.
Qed.

Lemma earliest_singleton h x : earliest {[h := x]} = Some (h, x).
Proof. unfold earliest. by rewrite map_to_list_singleton. Qed.

Lemma advance_idle t st :
  timers st = ∅ → advance t st = set_clock (Z.max (clock st) t) st.
Proof. intros He. unfold advance. by rewrite He, map_size_empty. Qed.

Lemma advance_not_due t st h d a :
  timers st = {[h := (d, a)]} → t < d →
  advance t st = set_clock (Z.max (clock st) t) st.
Proof.
  intros He Hlt. unfold advance. rewrite He, map_size_singleton. simpl.
  rewrite He, earliest_singleton, decide_False by lia. done.
Qed.

Lemma advance_due t st h d a :
  timers st = {[h := (d, a)]} → timeout st = Some h → d ≤ t →
  advance t st =
    set_clock (Z.max (Z.max (clock st) d) t)
      (queueBuild a (set_timers ∅ (set_clock (Z.max (clock st) d) st))).
Proof.
  intros He Hh Hle. unfold advance. rewrite He, map_size_singleton. simpl.
  rewrite He, earliest_singleton, decide_True by lia.
  unfold fire. simpl. rewrite He, lookup_singleton_eq, decide_True by lia.
  unfold later. simpl. rewrite Hh. simpl.
  rewrite delete_singleton_eq, delete_empty.
  change (set_timers ∅ (set_timers ∅ (set_clock (Z.max (clock st) d) st)))
    with (set_timers ∅ (set_clock (Z.max (clock st) d) st)).
  by destruct (queueBuild_frame a (set_timers ∅ (set_clock (Z.max (clock st) d) st)))
    as (_ & _ & _ & -> & _).
Qed.

(** After [advance t] no timer that was due by [t] is left. *)
Lemma advance_no_due t st :
  timer_inv st → ∀ id d a, timers (advance t st) !! id = Some (d, a) → t < d.
Proof.
  intros Hinv id d a. destruct (timer_inv_cases st Hinv) as [He|(h & [d' a'] & Hh & He)].
  - rewrite advance_idle by done. simpl. by rewrite He.
  - destruct (decide (d' ≤ t)) as [Hle|Hgt].
    + rewrite (advance_due t st h d' a') by done. simpl.
      by destruct (queueBuild_frame a' (set_timers ∅ (set_clock (Z.max (clock st) d') st)))
        as (_ & -> & _).
    + rewrite (advance_not_due t st h d' a') by (done || lia). simpl.
      rewrite He. intros [_ [=]]%lookup_singleton_Some. lia.
Qed.




Lemma debouncedBuild_frame a st :
  let st' := debouncedBuild a st in
  building st' = building st ∧ buildQueue st' = buildQueue st ∧
  tasks st' = tasks st ∧ trace st' = trace st ∧ console st' = console st ∧
  cwd st' = cwd st ∧ rejections st' = rejections st ∧ clock st' = clock st.
Proof.
  unfold debouncedBuild, debounce, executedFunction, clearTimeout. by destruct (timeout st).
Qed.


Lemma timer_inv_same st st' :
  timers st' = timers st → timeout st' = timeout st → nextTimer st' = nextTimer st →
  timer_inv st → timer_inv st'.
Proof. intros Ht Hh Hn Hinv id x. rewrite Ht, Hh, Hn. apply Hinv. Qed.




(** C2 as the script has it: there is one timer for all keys.  In a
    state the script reaches, after a call of [debouncedBuild] for [k]
    the only timer armed is the new one, for [k] and due 300 after the
    call; every timer that was armed before the call is cancelled,
    whichever package it was armed for. *)
Theorem debounce_single_timer evs st k :
  exec evs boot = Some st →
  timers (debouncedBuild k st) = {[nextTimer st := (clock st + 300, k)]} ∧
  timeout (debouncedBuild k st) = Some (nextTimer st) ∧
  (∀ id d k', timers st !! id = Some (d, k') →
              timers (debouncedBuild k st) !! id = None).
Proof.
  intros Hex. destruct (reachable_inv evs st Hex) as (Hinv & _).
  destruct (executedFunction_timers 300 k st Hinv) as [Htm Hh].
  split; [done|]. split; [done|].
  intros id d k' Hid. unfold debouncedBuild, debounce. rewrite Htm.
  apply Hinv in Hid as [_ Hlt]. apply lookup_singleton_ne. lia.
Qed.

(** ** Paths outside the packages *)

(** C7: with a registry of plain directory names, a path that lies in
    no package root [path.resolve(packagesDir, pkg)] resolves to a name
    that is not registered, and the handler of any of the three events
    leaves the state as it is: nothing is printed, no timer is armed, no
    build is called. *)
Theorem outside_path_dropped filePath :
  Forall plain packages →
  (∀ pkg, pkg ∈ packages → ¬ inside (Path.resolve packagesDir pkg) filePath) →
  (getPackageName filePath ∉ packages) ∧
  ∀ k st, step (EWatch k filePath) st = Some st.
Proof.
  intros Hplain Hout.
  pose proof (getPackageName_outside filePath Hplain Hout) as Hnot.
  split; [done|]. intros k st. simpl. unfold on_watch.
  by rewrite decide_False.
Qed.

(** ** A failed build *)



(** ** The initial build pass *)

Lemma queue_calls_buildPackage p k st :
  queue_calls (buildPackage p k st) = queue_calls st.
Proof.
  unfold queue_calls. simpl. rewrite omap_app. simpl. by rewrite app_nil_r.
Qed.

Lemma initial_iteration p r o st :
  tasks st = [] →
  ∃ st1 mid,
    step (ESettle 0 o) (buildPackage p (KInitial r) st) = Some st1 ∧
    step (EResume 0) st1 = Some (initial_loop r mid) ∧
    length (tasks st1) = 1%nat ∧
    building st1 = building st ∧ queue_calls st1 = queue_calls st ∧
    tasks mid = [] ∧ cwd mid = cwd st ∧ clock mid = clock st ∧
    trace mid = trace st ++ [BuildCall (clock st) p] ∧
    building mid = building st.
Proof.
  intros Ht. simpl. unfold settle. simpl. rewrite Ht. simpl.
  pose proof (settle_fields (mkTask p (cwd st) (KInitial r) Running) o
                (buildPackage p (KInitial r) st))
    as (Hb & _ & _ & _ & _ & Hc & _ & Hts & Htr & Hcwd).
  pose proof (settle_fulfilled (mkTask p (cwd st) (KInitial r) Running) o
                (buildPackage p (KInitial r) st)) as Hf.
  destruct (buildPackage_settle _ o _) as [s st1]. simpl in *. subst s.
  eexists _, _. split; [done|]. unfold resume_at. simpl.
  rewrite Hts, Ht. simpl. split; [done|].
  unfold queue_calls. simpl. rewrite Htr, omap_app. simpl. rewrite app_nil_r.
  done.
Qed.

Lemma initial_run rest : ∀ outcomes st,
  length outcomes = length rest → tasks st = [] →
  ∃ st', exec (initial_pass outcomes) (initial_loop rest st) = Some st' ∧
         tasks st' = [] ∧ cwd st' = cwd st ∧ building st' = building st ∧
         trace st' = trace st ++ (BuildCall (clock st) <$> rest).
Proof.
  induction rest as [|p r IH]; intros [|o os] st Hlen Ht; try done.
  - exists (log LAllBuilt st). simpl. by rewrite app_nil_r.
  - destruct (initial_iteration p r o st Ht)
      as (st1 & mid & H1 & H2 & _ & _ & _ & H3 & H4 & H5 & H6 & H7).
    destruct (IH os mid) as (st' & Hex & E1 & E2 & E3 & E4); [by injection Hlen|done|].
    exists st'. change (initial_pass (o :: os))
      with (ESettle 0 o :: EResume 0 :: initial_pass os).
    change (initial_loop (p :: r) st) with (buildPackage p (KInitial r) st).
    cbn [exec]. rewrite H1, H2, Hex.
    rewrite E2, E3, E4, H4, H5, H6, H7, <- app_assoc. done.
Qed.

Lemma initial_prefix rest : ∀ outcomes st m,
  length outcomes = length rest → tasks st = [] →
  ∃ stm, exec (take m (initial_pass outcomes)) (initial_loop rest st) = Some stm ∧
         (length (tasks stm) ≤ 1)%nat ∧
         building stm = building st ∧ queue_calls stm = queue_calls st.
Proof.
  induction rest as [|p r IH]; intros [|o os] st m Hlen Ht; try done.
  - exists (log LAllBuilt st). unfold initial_pass. simpl. rewrite take_nil.
    simpl. rewrite Ht. simpl. split; [done|]. split; [lia|done].
  - destruct (initial_iteration p r o st Ht)
      as (st1 & mid & H1 & H2 & L1 & B1 & Q1 & H3 & H4 & H5 & H6 & H7).
    change (initial_pass (o :: os))
      with (ESettle 0 o :: EResume 0 :: initial_pass os).
    change (initial_loop (p :: r) st) with (buildPackage p (KInitial r) st).
    destruct m as [|[|m]].
    + eexists. split; [done|]. simpl. rewrite Ht. simpl. split; [lia|].
      split; [done|]. apply queue_calls_buildPackage.
    + exists st1. cbn [take exec]. rewrite H1. split; [done|]. split; [lia|done].
    + destruct (IH os mid m) as (stm & Hex & E1 & E2 & E3); [by injection Hlen|done|].
      exists stm. cbn [take exec]. rewrite H1, H2, Hex.
      split; [done|]. split; [done|]. rewrite E2, E3, H7.
      unfold queue_calls. rewrite H6, omap_app. simpl. by rewrite app_nil_r.
Qed.

Lemma build_calls_of_builds c (l : list string) tr :
  omap (λ o, match o with BuildCall t n => Some (t, n) | _ => None end)
       (tr ++ (BuildCall c <$> l))
  = omap (λ o, match o with BuildCall t n => Some (t, n) | _ => None end) tr
    ++ ((λ p, (c, p)) <$> l) ∧
  omap (λ o, match o with QueueBuildCall t n => Some (t, n) | _ => None end)
       (tr ++ (BuildCall c <$> l))
  = omap (λ o, match o with QueueBuildCall t n => Some (t, n) | _ => None end) tr.
Proof.
  rewrite !omap_app. split.
  - f_equal. induction l as [|q l IH]; [done|]. simpl. by f_equal.
  - rewrite <- app_nil_r. f_equal. induction l as [|q l IH]; done.
Qed.

(** The initial pass when no other event comes in.  With one outcome
    for every package the pass runs to its end; [buildPackage] was called
    once for every package of the registry, in the order of the
    registry; the working directory is back where it was; and at every
    turn of the pass at most one build has not been resumed from.  The
    loop calls [buildPackage] itself: [queueBuild] is not called and
    [building] stays empty all along. *)
Lemma initial_pass_sequential outcomes :
  length outcomes = length packages →
  (∃ st, exec (initial_pass outcomes) boot = Some st ∧
         build_calls st = (λ p, (0, p)) <$> packages ∧
         queue_calls st = [] ∧ tasks st = [] ∧
         building st = ∅ ∧ cwd st = cwd0) ∧
  (∀ m, ∃ stm, exec (take m (initial_pass outcomes)) boot = Some stm ∧
               (length (tasks stm) ≤ 1)%nat ∧
               building stm = ∅ ∧ queue_calls stm = []).
Proof.
  intros Hlen. split.
  - destruct (initial_run packages outcomes (log LBuildingAll (log LWatching state0)))
      as (st & Hex & Ht & Hc & Hb & Htr); [done|done|].
    exists st. split; [done|]. unfold build_calls, queue_calls.
    rewrite Htr.
    destruct (build_calls_of_builds (clock (log LBuildingAll (log LWatching state0)))
                packages (trace (log LBuildingAll (log LWatching state0))))
      as [-> ->].
    done.
  - intros m.
    destruct (initial_prefix packages outcomes (log LBuildingAll (log LWatching state0)) m)
      as (stm & Hex & H1 & H2 & H3); [done|done|].
    by exists stm.
Qed.

(** ** Only registered packages, only known directories *)

Lemma buildPackage_registered name k st :
  registered_inv st → name ∈ packages →
  match k with
  | KInitial rest => ∀ n, n ∈ rest → n ∈ packages
  | KQueueBuild => True
  end →
  registered_inv (buildPackage name k st).
Proof.
  intros (Hb & Hq & Ht & Hk & Htr & Hc) Hname Hcont.
  split; [done|]. split; [done|]. split; [done|]. split; [|split].
  - intros t. simpl. intros [Hin|Heq]%elem_of_app; [by apply Hk|].
    apply list_elem_of_singleton in Heq as ->. done.
  - intros o. simpl. intros [Hin|Heq]%elem_of_app; [by apply Htr|].
    apply list_elem_of_singleton in Heq as ->. done.
  - right. by exists name.
Qed.

Lemma queueBuild_registered name st :
  registered_inv st → name ∈ packages → registered_inv (queueBuild name st).
Proof.
  intros Hinv Hname.
  assert (Hobs : registered_inv (observe (QueueBuildCall (clock st) name) st)).
  { destruct Hinv as (Hb & Hq & Ht & Hk & Htr & Hc).
    repeat (split; [done|]). split; [|done].
    intros o. simpl. intros [Hin|Heq]%elem_of_app; [by apply Htr|].
    apply list_elem_of_singleton in Heq as ->. done. }
  destruct (decide (name ∈ building st)) as [Hin|Hin].
  - rewrite queueBuild_busy by done.
    destruct Hobs as (Hb & Hq & Ht & Hk & Htr & Hc).
    split; [done|]. split; [|done].
    intros n. simpl. intros [->%elem_of_singleton|?]%elem_of_union; [done|by apply Hq].
  - rewrite queueBuild_idle by done. apply buildPackage_registered; [|done|done].
    destruct Hobs as (Hb & Hq & Ht & Hk & Htr & Hc).
    split; [|done].
    intros n. simpl. intros [->%elem_of_singleton|?]%elem_of_union; [done|by apply Hb].
Qed.

Lemma executedFunction_entries wait args st id d a :
  timers (executedFunction wait args st) !! id = Some (d, a) →
  a = args ∨ timers st !! id = Some (d, a).
Proof.
  unfold executedFunction, clearTimeout.
  destruct (timeout st) as [h|]; simpl.
  - intros [[_ [= _ <-]]|[_ [_ Hl]%lookup_delete_Some]]%lookup_insert_Some; auto.
  - intros [[_ [= _ <-]]|[_ Hl]]%lookup_insert_Some; auto.
Qed.

Lemma clearTimeout_entries h st id x :
  timers (clearTimeout h st) !! id = Some x → timers st !! id = Some x.
Proof.
  destruct h as [h|]; simpl; [|done]. by intros [_ ?]%lookup_delete_Some.
Qed.

Lemma registered_inv_step e st st' :
  promise_inv st → registered_inv st → step e st = Some st' → registered_inv st'.
Proof.
  intros Hp Hinv He. destruct e as [k p|err|t|id|i o|i]; simpl in He.
  - injection He as <-. unfold on_watch. case_decide as Hreg; [|done].
    destruct Hinv as (Hb & Hq & Ht & Hk & Htr & Hc).
    destruct (debouncedBuild_frame (getPackageName p) (log (LFile k p) st))
      as (E1 & E2 & E3 & E4 & _ & E6 & _).
    split; [by rewrite E1|]. split; [by rewrite E2|].
    split; [|by rewrite E3, E4, E6].
    intros id d a [->|Hl]%executedFunction_entries; [done|]. by eapply Ht.
  - by injection He as <-.
  - case_decide; [|done]. by injection He as <-.
  - unfold fire in He. destruct (timers st !! id) as [[d a]|] eqn:Hid; [|done].
    case_decide; [|done]. injection He as <-.
    destruct Hinv as (Hb & Hq & Ht & Hk & Htr & Hc).
    unfold later. apply queueBuild_registered; [|by eapply Ht].
    assert (Hsame : ∀ h s, building (clearTimeout h s) = building s ∧
                           buildQueue (clearTimeout h s) = buildQueue s ∧
                           tasks (clearTimeout h s) = tasks s ∧
                           trace (clearTimeout h s) = trace s ∧
                           cwd (clearTimeout h s) = cwd s).
    { intros h s0. by destruct h. }
    destruct (Hsame (timeout (set_timers (delete id (timers st)) st))
                (set_timers (delete id (timers st)) st)) as (E1 & E2 & E3 & E4 & E5).
    split; [by rewrite E1|]. split; [by rewrite E2|].
    split; [|by rewrite E3, E4, E5].
    intros j d' a' Hl%clearTimeout_entries. simpl in Hl.
    apply lookup_delete_Some in Hl as [_ Hl]. by eapply Ht.
  - unfold settle in He. destruct (tasks st !! i) as [t|] eqn:Hi; [|done].
    destruct (t_phase t); [|done].
    pose proof (settle_fields t o st) as (Hb1 & Hq1 & _ & Ht1 & _ & _ & _ & Hts1 & Htr1 & Hcwd1).
    destruct (buildPackage_settle t o st) as [s st1]. injection He as <-.
    destruct Hinv as (Hb & Hq & Ht & Hk & Htr & Hc). simpl in *.
    assert (Hti : t ∈ tasks st) by (apply list_elem_of_lookup; eauto).
    unfold registered_inv. simpl.
    split; [by rewrite Hb1|]. split; [by rewrite Hq1|]. split; [by rewrite Ht1|].
    split; [|split; [by rewrite Htr1|]].
    + intros t'. rewrite Hts1. intros Hin.
      apply list_elem_of_lookup in Hin as [j Hj].
      destruct (decide (i = j)) as [->|Hne].
      * rewrite list_lookup_insert_eq in Hj by (by eapply lookup_lt_Some).
        injection Hj as <-. simpl. by apply Hk.
      * rewrite list_lookup_insert_ne in Hj by done.
        apply Hk, list_elem_of_lookup. eauto.
    + rewrite Hcwd1. by apply Hk.
  - unfold resume_at in He. destruct (tasks st !! i) as [t|] eqn:Hi; [|done].
    destruct (t_phase t) as [|s] eqn:Hph; [done|]. injection He as <-.
    assert (Hti : t ∈ tasks st) by (apply list_elem_of_lookup; eauto).
    assert (s = Fulfilled) as ->.
    { destruct Hp as [_ Ht]. destruct (Ht t Hti); congruence. }
    destruct Hinv as (Hb & Hq & Ht & Hk & Htr & Hc).
    destruct (Hk t Hti) as (Hname & _ & Hcont).
    assert (Hdel : registered_inv (set_tasks (delete i (tasks st)) st)).
    { repeat (split; [done|]). split; [|by split].
      intros t' Hin. simpl in Hin. apply Hk. by eapply list_elem_of_delete_inv. }
    simpl. destruct (t_cont t) as [|rest].
    + unfold queueBuild_resume.
      set (st0 := set_building _ _).
      assert (H0 : registered_inv st0).
      { destruct Hdel as (Hb' & Hq' & Ht' & Hk' & Htr' & Hc').
        split; [|done]. intros n. simpl. intros [? _]%elem_of_difference. by apply Hb. }
      case_decide; [|done]. apply queueBuild_registered; [|done].
      destruct H0 as (Hb' & Hq' & Ht' & Hk' & Htr' & Hc').
      split; [done|]. split; [|done].
      intros n. simpl. intros [? _]%elem_of_difference. by apply Hq.
    + destruct rest as [|pkg rest]; [done|].
      apply buildPackage_registered; [done| |].
      * apply Hcont. by left.
      * intros n Hn. apply Hcont. by right.
Qed.

Lemma boot_registered_inv : registered_inv boot.
Proof.
  unfold boot.
  assert (H0 : registered_inv (log LBuildingAll (log LWatching state0))).
  { split; [by intros n ?%elem_of_empty|]. split; [by intros n ?%elem_of_empty|].
    split; [intros id d a Hl; simpl in Hl; by rewrite lookup_empty in Hl|].
    split; [by intros t ?%elem_of_nil|]. split; [by intros o ?%elem_of_nil|].
    by left. }
  destruct packages as [|pkg rest] eqn:Hpk; [done|].
  apply buildPackage_registered; [done| |].
  - rewrite Hpk. by left.
  - intros n Hn. rewrite Hpk. by right.
Qed.

Lemma reachable_registered evs st :
  exec evs boot = Some st → promise_inv st ∧ registered_inv st.
Proof.
  apply (exec_inv (λ s, promise_inv s ∧ registered_inv s)).
  - intros e s s' [Hp Hr] He. split.
    + by apply (promise_inv_step e s).
    + by apply (registered_inv_step e s).
  - split; [apply boot_promise_inv|apply boot_registered_inv].
Qed.

(** Along every run the scheduler only ever deals with packages of the
    registry: every call of [queueBuild] and of [buildPackage], every
    member of [building], every build in flight and every armed timer is
    for a name in [packages]. *)
Theorem only_registered_packages evs st :
  exec evs boot = Some st →
  (∀ t n, (t, n) ∈ build_calls st → n ∈ packages) ∧
  (∀ t n, (t, n) ∈ queue_calls st → n ∈ packages) ∧
  (∀ n, n ∈ building st → n ∈ packages) ∧
  (∀ t, t ∈ tasks st → t_name t ∈ packages) ∧
  (∀ id d a, timers st !! id = Some (d, a) → a ∈ packages).
Proof.
  intros Hex. destruct (reachable_registered evs st Hex) as (_ & Hb & _ & Ht & Hk & Htr & _).
  split; [|split; [|split; [done|split; [|done]]]].
  - intros t n (o & Ho & Heq)%list_elem_of_omap.
    destruct o; [done|]. injection Heq as <- <-. by apply (Htr _ Ho).
  - intros t n (o & Ho & Heq)%list_elem_of_omap.
    destruct o; [|done]. injection Heq as <- <-. by apply (Htr _ Ho).
  - intros t Hin. by apply Hk.
Qed.

(** Along every run the working directory of the process is the
    directory the script was started in or the root of a registered
    package, and so is the directory every build in flight will go back
    to. *)
Theorem cwd_is_a_place evs st :
  exec evs boot = Some st →
  place (cwd st) ∧ ∀ t, t ∈ tasks st → place (t_originalCwd t).
Proof.
  intros Hex. destruct (reachable_registered evs st Hex) as (_ & _ & _ & _ & Hk & _ & Hc).
  split; [done|]. intros t Hin. by apply Hk.
Qed.

(** ** After the initial pass *)

Lemma filter_length_le {A} (P Q : A → Prop) `{∀ x, Decision (P x)} `{∀ x, Decision (Q x)}
    (l : list A) :
  (∀ x, x ∈ l → P x → Q x) → (length (filter P l) ≤ length (filter Q l))%nat.
Proof.
  induction l as [|x l IH]; intros Himp; [done|].
  rewrite !filter_cons.
  assert (IH' : (length (filter P l) ≤ length (filter Q l))%nat).
  { apply IH. intros y Hy. apply Himp. by right. }
  destruct (decide (P x)) as [HP|HP].
  - rewrite decide_True by (apply Himp; [by left|done]). simpl. lia.
  - destruct (decide (Q x)); simpl; lia.
Qed.

Lemma queueBuild_pass_over name st : pass_over st → pass_over (queueBuild name st).
Proof.
  intros Hinv t. destruct (queueBuild_tasks name st) as [[_ ->]|[_ ->]]; [apply Hinv|].
  intros [?|Heq]%elem_of_app; [by apply Hinv|].
  by apply list_elem_of_singleton in Heq as ->.
Qed.

Lemma pass_over_step e st st' :
  promise_inv st → pass_over st → step e st = Some st' → pass_over st'.
Proof.
  intros Hp Hinv He. destruct e as [k p|err|t|id|i o|i]; simpl in He.
  - injection He as <-. unfold on_watch. case_decide; [|done].
    intros t. destruct (debouncedBuild_frame (getPackageName p) (log (LFile k p) st))
      as (_ & _ & -> & _). apply Hinv.
  - by injection He as <-.
  - case_decide; [|done]. by injection He as <-.
  - unfold fire in He. destruct (timers st !! id) as [[d a]|]; [|done].
    case_decide; [|done]. injection He as <-.
    unfold later, clearTimeout. apply queueBuild_pass_over.
    by destruct (timeout _).
  - unfold settle in He. destruct (tasks st !! i) as [t|] eqn:Hi; [|done].
    destruct (t_phase t); [|done].
    pose proof (settle_fields t o st) as (_ & _ & _ & _ & _ & _ & _ & Hts & _).
    destruct (buildPackage_settle t o st) as [s st1]. injection He as <-.
    simpl in *. intros t'. simpl. rewrite Hts. intros Hin.
    apply list_elem_of_lookup in Hin as [j Hj].
    destruct (decide (i = j)) as [->|Hne].
    + rewrite list_lookup_insert_eq in Hj by (by eapply lookup_lt_Some).
      injection Hj as <-. simpl. apply Hinv, list_elem_of_lookup. eauto.
    + rewrite list_lookup_insert_ne in Hj by done.
      apply Hinv, list_elem_of_lookup. eauto.
  - unfold resume_at in He. destruct (tasks st !! i) as [t|] eqn:Hi; [|done].
    destruct (t_phase t) as [|s] eqn:Hph; [done|]. injection He as <-.
    assert (Hti : t ∈ tasks st) by (apply list_elem_of_lookup; eauto).
    assert (s = Fulfilled) as ->.
    { destruct Hp as [_ Ht]. destruct (Ht t Hti); congruence. }
    simpl. rewrite (Hinv t Hti).
    assert (Hdel : pass_over (set_tasks (delete i (tasks st)) st)).
    { intros t' Hin. simpl in Hin. apply Hinv. by eapply list_elem_of_delete_inv. }
    unfold queueBuild_resume. set (st0 := set_building _ _).
    case_decide; [|done]. by apply queueBuild_pass_over.
Qed.

(** Once the initial pass is over (no build of it is left), at most one
    invocation of [buildPackage] is outstanding for a package, in this
    state and after any further turns. *)
Theorem no_overlap_after_initial_pass evs st evs' st' name :
  exec evs boot = Some st → pass_over st → exec evs' st = Some st' →
  (outstanding name st' ≤ 1)%nat.
Proof.
  intros Hex Hover Hex'.
  assert (Hinv : promise_inv st ∧ track_inv st).
  { revert Hex. apply (exec_inv (λ s, promise_inv s ∧ track_inv s)).
    - intros e s s' [Hp Ht] He. split.
      + by apply (promise_inv_step e s).
      + by apply (track_inv_step e s).
    - split; [apply boot_promise_inv|apply boot_track_inv]. }
  assert (Hinv' : promise_inv st' ∧ track_inv st' ∧ pass_over st').
  { revert Hex'. apply (exec_inv (λ s, promise_inv s ∧ track_inv s ∧ pass_over s)).
    - intros e s s' (Hp & Ht & Ho) He. split; [|split].
      + by apply (promise_inv_step e s).
      + by apply (track_inv_step e s).
      + by apply (pass_over_step e s).
    - by destruct Hinv. }
  destruct Hinv' as (_ & Ht & Ho). specialize (Ht name).
  assert (Hle : (outstanding name st' ≤ queue_builds name st')%nat).
  { unfold outstanding, queue_builds. apply filter_length_le.
    intros t Hin. unfold is_running, started_by_queue. rewrite (Ho t Hin).
    by destruct (t_phase t). }
  destruct (decide (name ∈ building st')); lia.
Qed.

(** ** Events for files of a package *)

(** In a state the script reaches, an event of any of the three kinds
    for a file anywhere under the root of a registered package (with a
    plain directory name) prints the line of the event and arms the one
    timer for that package, due 300 later; it starts nothing at once: no
    call is made, and the builds in flight, [building], [buildQueue] and
    the working directory are as before. *)
Theorem watched_file_schedules_build evs st k filePath pkg :
  exec evs boot = Some st →
  plain pkg → pkg ∈ packages →
  inside (Path.resolve packagesDir pkg) filePath →
  ∃ st',
    step (EWatch k filePath) st = Some st' ∧
    console st' = console st ++ [LFile k filePath] ∧
    timers st' = {[nextTimer st := (clock st + 300, pkg)]} ∧
    trace st' = trace st ∧ tasks st' = tasks st ∧
    building st' = building st ∧ buildQueue st' = buildQueue st ∧
    cwd st' = cwd st.
Proof.
  intros Hex Hplain Hreg Hin.
  destruct (reachable_inv evs st Hex) as (Hinv & _).
  pose proof (getPackageName_inside pkg filePath Hplain Hin) as Hname.
  eexists. split; [done|]. unfold on_watch. rewrite Hname, decide_True by done.
  assert (Hinv' : timer_inv (log (LFile k filePath) st)) by done.
  destruct (executedFunction_timers 300 pkg _ Hinv') as [Htm _].
  destruct (debouncedBuild_frame pkg (log (LFile k filePath) st))
    as (-> & -> & -> & -> & -> & -> & _).
  done.
Qed.

(** A file anywhere under the root of a package with a plain directory
    name resolves to that package: under [src] or not, at any depth. *)
Theorem file_in_package_resolves pkg filePath :
  plain pkg → inside (Path.resolve packagesDir pkg) filePath →
  getPackageName filePath = pkg.
Proof. apply getPackageName_inside. Qed.

(** A file that is not under [packagesDir] resolves to [".."], whatever
    the registry. *)
Theorem outside_packagesDir_is_dotdot filePath :
  ¬ inside packagesDir filePath → getPackageName filePath = "..".
Proof.
  intros Hout. rewrite getPackageName_spec.
  destruct (strip_common_spec (Path.segments packagesDir) (Path.segments filePath))
    as (common & Hfrom & Hto & _).
  destruct (Path.strip_common _ _) as [[|u up] down]; simpl in *; [|done].
  exfalso. apply Hout. unfold inside. rewrite app_nil_r in Hfrom.
  rewrite Hto, Hfrom at 1. by exists down.
Qed.

(** ** What is thrown *)

(** The turn of a thrown value with a message is the turn of [Threw]. *)
Lemma settle_thrown_message i m st :
  settle_thrown i (WithMessage m) st = step (ESettle i (Threw m)) st.
Proof. reflexivity. Qed.

(** From any state, a build awaited by [queueBuild] in which [null] or
    [undefined] is thrown: nothing is printed, the working directory is
    put back, the promise of [buildPackage] is rejected with the
    [TypeError] of the [catch] block; resuming [queueBuild] then adds an
    unhandled rejection and leaves [building] and [buildQueue] as they
    are, the build being gone. *)
Lemma thrown_nullish_rejects i t v st :
  tasks st !! i = Some t → t_phase t = Running → t_cont t = KQueueBuild →
  ∃ st1 st2,
    settle_thrown i (Bare v) st = Some st1 ∧
    tasks st1 !! i = Some (mkTask (t_name t) (t_originalCwd t) KQueueBuild
                             (Settled (Rejected (type_error v)))) ∧
    step (EResume i) st1 = Some st2 ∧
    rejections st2 = rejections st ++ [type_error v] ∧
    console st2 = console st ∧ cwd st2 = t_originalCwd t ∧
    tasks st2 = delete i (tasks st) ∧
    building st2 = building st ∧ buildQueue st2 = buildQueue st ∧
    trace st2 = trace st.
Proof.
  intros Hi Hph Hk. destruct t as [name ocwd cont ph]. simpl in *. subst cont ph.
  unfold settle_thrown. rewrite Hi. simpl.
  eexists _, _. split; [done|]. simpl.
  rewrite list_lookup_insert_eq by (by eapply lookup_lt_Some).
  split; [done|]. unfold resume_at. simpl.
  rewrite list_lookup_insert_eq by (by eapply lookup_lt_Some). simpl.
  split; [done|]. simpl. by rewrite delete_insert_same.
Qed.

End Script.

(** ** Runs on a small registry *)

Definition demo_packages : list string := ["bytemd"; "react"].
Definition demo_dir : string := "/repo/packages".
Definition demo_cwd : string := "/repo".

Abbreviation demo_boot := (boot demo_packages demo_dir demo_cwd).
Abbreviation demo_exec := (exec demo_packages demo_dir).

(** Both packages built by the initial pass, then an edit in [bytemd]
    whose debounced build is running. *)
Definition demo_busy : list Event :=
  [ESettle 0 Built; EResume 0; ESettle 0 Built; EResume 0;
   EWatch Change "/repo/packages/bytemd/src/index.ts"; ETick 300; ETimer 0].

Lemma demo_plain : Forall plain demo_packages.
Proof. repeat constructor; done. Qed.

Example split_example : Path.split Path.sep "a/b//c" = ["a"; "b"; EmptyString; "c"].
Proof. reflexivity. Qed.

Example resolve_example :
  Path.resolve demo_dir "bytemd" = "/repo/packages/bytemd".
Proof. reflexivity. Qed.

Example relative_example_below :
  Path.relative demo_dir "/repo/packages/bytemd/src/index.ts" = "bytemd/src/index.ts".
Proof. reflexivity. Qed.

Example relative_example_above :
  Path.relative demo_dir "/repo/scripts/build.mjs" = "../scripts/build.mjs".
Proof. reflexivity. Qed.

Example relative_example_same : Path.relative demo_dir "/repo/packages" = EmptyString.
Proof. reflexivity. Qed.

(** A file of a package that is not under its [src] resolves to the
    package all the same: the handlers rely on the glob of the watcher. *)
Example getPackageName_example_dist :
  getPackageName demo_dir "/repo/packages/bytemd/dist/index.js" = "bytemd".
Proof. reflexivity. Qed.

(** C1, the run that breaks it: the registry is [["bytemd"]]; during the
    initial build of [bytemd] a file of the package changes, and 300 later
    the timer fires.  The initial pass called [buildPackage] without
    adding the package to [building], so [queueBuild] starts a second
    build: two invocations of [buildPackage "bytemd"] are outstanding. *)
Theorem build_overlaps_initial_pass :
  ∃ st,
    exec ["bytemd"] demo_dir
      [EWatch Change "/repo/packages/bytemd/src/index.ts"; ETick 300; ETimer 0]
      (boot ["bytemd"] demo_dir demo_cwd) = Some st ∧
    outstanding "bytemd" st = 2%nat ∧
    build_calls st = [(0, "bytemd"); (300, "bytemd")].
Proof. eexists. split; [vm_compute; reflexivity|]. by vm_compute. Qed.

(** C10, the run that breaks it: after the initial pass a file of
    [bytemd] changes, its build starts at 300; a file of [react] changes
    at 400, its build starts at 700 while the first is still running and
    so takes the root of [bytemd] for its [originalCwd].  Once both builds
    have ended the process is left in the root of [bytemd]. *)
Theorem cwd_left_in_package_root :
  ∃ idle st,
    demo_exec [ESettle 0 Built; EResume 0; ESettle 0 Built; EResume 0] demo_boot
    = Some idle ∧
    tasks idle = [] ∧ cwd idle = demo_cwd ∧
    demo_exec
      [EWatch Change "/repo/packages/bytemd/src/index.ts"; ETick 300; ETimer 0;
       ETick 400; EWatch Change "/repo/packages/react/src/index.ts";
       ETick 700; ETimer 1;
       ESettle 0 Built; EResume 0; ESettle 0 Built; EResume 0]
      idle = Some st ∧
    tasks st = [] ∧ cwd st = "/repo/packages/bytemd".
Proof.
  eexists _, _. split; [vm_compute; reflexivity|].
  split; [done|]. split; [done|]. split; [vm_compute; reflexivity|]. done.
Qed.

(** The state after a run from the start of the script ([demo_boot] if
    the run cannot happen). *)
Definition demo_state (evs : list Event) : State :=
  default demo_boot (demo_exec evs demo_boot).

Lemma demo_busy_run : demo_exec demo_busy demo_boot = Some (demo_state demo_busy).
Proof. by vm_compute. Qed.

(** Both packages built by the initial pass, nothing else. *)
Definition demo_initial : list Event :=
  [ESettle 0 Built; EResume 0; ESettle 0 Built; EResume 0].

Lemma demo_initial_run :
  demo_exec demo_initial demo_boot = Some (demo_state demo_initial).
Proof. by vm_compute. Qed.

(** C2, where it fails: an event for [bytemd] arms timer 0, due at 300;
    an event for [react] at 100 cancels it and arms timer 1, due at 400.
    When time has passed [queueBuild] was called for [react] alone: the
    debounced build of [bytemd] is lost. *)
Lemma debounce_per_key_counterexample :
  let st1 := demo_state [EWatch Change "/repo/packages/bytemd/src/index.ts"] in
  let st2 := demo_state [EWatch Change "/repo/packages/bytemd/src/index.ts"; ETick 100;
                         EWatch Change "/repo/packages/react/src/index.ts"] in
  timers st1 = {[0%nat := (300, "bytemd")]} ∧
  timers (debouncedBuild demo_dir "react" (set_clock 100 st1)) = {[1%nat := (400, "react")]} ∧
  timers st2 = {[1%nat := (400, "react")]} ∧
  timers st2 !! 0%nat = None ∧
  queue_calls (advance demo_dir 1000 st2) = [(400, "react")].
Proof. by vm_compute. Qed.


(** C6, the run that breaks it: on the registry [["bytemd"; "react"]]
    the initial pass starts the build of [bytemd] by calling
    [buildPackage] itself: [queueBuild] is not called (nor is it in the
    whole of an undisturbed pass) and, with that build running,
    [building] is empty.  A file of [bytemd] is added during the
    build; 300 later the timer fires and [queueBuild], finding [bytemd]
    absent from [building], starts a second build of it next to the one
    of the pass.  The pass goes on to [react] and prints its closing line:
    by then [buildPackage] was called three times for two packages, and
    the one call of [queueBuild] is the one of the watcher. *)
Theorem initial_pass_bypasses_queueBuild :
  queue_calls (demo_state demo_initial) = [] ∧
  queue_calls demo_boot = [] ∧ building demo_boot = ∅ ∧
  outstanding "bytemd" demo_boot = 1%nat ∧
  ∃ st1 st2,
    demo_exec [EWatch Add "/repo/packages/bytemd/src/new.ts"; ETick 300; ETimer 0]
      demo_boot = Some st1 ∧
    outstanding "bytemd" st1 = 2%nat ∧
    build_calls st1 = [(0, "bytemd"); (300, "bytemd")] ∧
    demo_exec [ESettle 0 Built; EResume 0; ESettle 1 Built; EResume 1] st1 = Some st2 ∧
    last (console st2) = Some LAllBuilt ∧
    build_calls st2 = [(0, "bytemd"); (300, "bytemd"); (300, "react")] ∧
    queue_calls st2 = [(300, "bytemd")] ∧
    outstanding "bytemd" st2 = 1%nat.
Proof.
  do 4 (split; [by vm_compute|]).
  eexists _, _. split; [vm_compute; reflexivity|].
  do 2 (split; [by vm_compute|]).
  split; [vm_compute; reflexivity|]. by vm_compute.
Qed.

(** C9, the run that breaks it: after the initial pass a file of
    [bytemd] changes and the debounced [queueBuild] has its build
    running.  A step of that build throws [undefined] (a promise rejected
    without a reason), or [null].  In the [catch] block [error.message]
    throws a [TypeError]: no line is printed, the promise of
    [buildPackage] is rejected, and when [queueBuild] is resumed its own
    promise is rejected with nothing to handle it.  [queueBuild] never
    gets to [building.delete]: no build is left but [bytemd] stays in
    [building], and a later change of the package, its timer fired, is
    queued behind a build that does not exist; nothing is built. *)
Theorem queueBuild_rejects_on_thrown_nullish :
  let st := demo_state demo_busy in
  tasks st = [mkTask "bytemd" demo_cwd KQueueBuild Running] ∧
  rejections st = [] ∧
  (∀ v, ∃ st1 st2 st3,
     settle_thrown 0 (Bare v) st = Some st1 ∧
     tasks st1 = [mkTask "bytemd" demo_cwd KQueueBuild
                    (Settled (Rejected (type_error v)))] ∧
     console st1 = console st ∧
     step demo_packages demo_dir (EResume 0) st1 = Some st2 ∧
     rejections st2 = [type_error v] ∧
     tasks st2 = [] ∧ building st2 = {["bytemd"]} ∧
     demo_exec [ETick 1000; EWatch Change "/repo/packages/bytemd/src/index.ts";
                ETick 1300; ETimer 1] st2 = Some st3 ∧
     build_calls st3 = build_calls st ∧ tasks st3 = [] ∧
     queue_calls st3 = queue_calls st ++ [(1300, "bytemd")] ∧
     buildQueue st3 = {["bytemd"]}).
Proof.
  do 2 (split; [by vm_compute|]).
  intros v. destruct v; eexists _, _, _.
  - split; [vm_compute; reflexivity|].
    do 2 (split; [by vm_compute|]). split; [vm_compute; reflexivity|].
    do 3 (split; [by vm_compute|]). split; [vm_compute; reflexivity|].
    by vm_compute.
  - split; [vm_compute; reflexivity|].
    do 2 (split; [by vm_compute|]). split; [vm_compute; reflexivity|].
    do 3 (split; [by vm_compute|]). split; [vm_compute; reflexivity|].
    by vm_compute.
Qed.

(** ** The theorems at work on the registry above *)

Lemma debounce_single_timer_witness :
  let st := demo_state [EWatch Change "/repo/packages/bytemd/src/index.ts"] in
  timers (debouncedBuild demo_dir "react" st) = {[nextTimer st := (clock st + 300, "react")]} ∧
  timeout (debouncedBuild demo_dir "react" st) = Some (nextTimer st) ∧
  (∀ id d k', timers st !! id = Some (d, k') →
              timers (debouncedBuild demo_dir "react" st) !! id = None).
Proof.
  apply (debounce_single_timer demo_packages demo_dir demo_cwd
           [EWatch Change "/repo/packages/bytemd/src/index.ts"]).
  vm_compute. reflexivity.
Defined.




Lemma outside_path_dropped_witness :
  ("scripts" ∉ demo_packages) ∧
  (getPackageName demo_dir "/repo/packages/scripts/build.mjs" ∉ demo_packages) ∧
  ∀ k st, step demo_packages demo_dir
            (EWatch k "/repo/packages/scripts/build.mjs") st = Some st.
Proof.
  split; [by vm_compute; intros ?%list_elem_of_In; simpl in *; intuition discriminate|].
  apply (outside_path_dropped demo_packages demo_dir "/repo/packages/scripts/build.mjs").
  - exact demo_plain.
  - intros pkg Hin Hins. unfold inside in Hins.
    apply (bool_decide_pack _) in Hins.
    repeat (apply elem_of_cons in Hin as [->|Hin]; [by vm_compute in Hins|]).
    by apply elem_of_nil in Hin.
Defined.


(** ** Strings: prefixes, occurrences, lines *)

Lemma startsWith_app pat w r :
  Str.startsWith pat w = true → Str.startsWith pat (w +:+ r) = true.
Proof.
  revert w. induction pat as [|a pat IH]; intros [|b w]; simpl; try done.
  intros [Hab Hp]%andb_true_iff. by rewrite Hab, (IH w Hp).
Qed.

Lemma startsWith_app_char c pat w r :
  Str.has_char c pat = false →
  Str.startsWith pat (w +:+ String c r) = true → Str.startsWith pat w = true.
Proof.
  revert w. induction pat as [|a pat IH]; intros w Hc; [by destruct w|].
  simpl in Hc. apply orb_false_iff in Hc as [Hac Hc].
  destruct w as [|b w]; simpl.
  - by rewrite Hac.
  - intros [Hab Hp]%andb_true_iff. by rewrite Hab, (IH w Hc Hp).
Qed.



Lemma includes_app_l pat w r :
  Str.includes pat w = true → Str.includes pat (w +:+ r) = true.
Proof.
  induction w as [|b w IH].
  - simpl. rewrite orb_false_r. intros H. destruct pat; [by destruct r|done].
  - change (String b w +:+ r) with (String b (w +:+ r)). cbn [Str.includes].
    intros [H|H]%orb_true_iff.
    + apply (startsWith_app pat (String b w) r) in H.
      change (String b w +:+ r) with (String b (w +:+ r)) in H. by rewrite H.
    + rewrite (IH H). apply orb_true_r.
Qed.

Lemma includes_app_r pat w r :
  Str.includes pat r = true → Str.includes pat (w +:+ r) = true.
Proof.
  intros H. induction w as [|b w IH]; [done|].
  change (String b w +:+ r) with (String b (w +:+ r)). cbn [Str.includes].
  rewrite IH. apply orb_true_r.
Qed.

Lemma includes_app_char c pat w r :
  Str.has_char c pat = false → pat ≠ EmptyString →
  Str.includes pat (w +:+ String c r) = true →
  Str.includes pat w = true ∨ Str.includes pat r = true.
Proof.
  intros Hc Hne. induction w as [|b w IH].
  - simpl. intros [H|H]%orb_true_iff; [|by right].
    destruct pat as [|a pat]; [done|]. simpl in Hc, H.
    apply orb_false_iff in Hc as [Hac _]. by rewrite Hac in H.
  - change (String b w +:+ String c r) with (String b (w +:+ String c r)).
    cbn [Str.includes]. intros [H|H]%orb_true_iff.
    + left. apply (startsWith_app_char c pat (String b w) r Hc) in H.
      by rewrite H.
    + destruct (IH H) as [H'|H']; [left|by right]. rewrite H'. apply orb_true_r.
Qed.

Lemma includes_join c pat l :
  Str.has_char c pat = false → pat ≠ EmptyString →
  Str.includes pat (Path.join c l) = true →
  ∃ w, w ∈ l ∧ Str.includes pat w = true.
Proof.
  intros Hc Hne. induction l as [|w ws IH].
  - simpl. rewrite orb_false_r. by destruct pat.
  - destruct ws as [|w' ws].
    + simpl. intros H. exists w. split; [by left|done].
    + change (Path.join c (w :: w' :: ws))
        with (w +:+ String c (Path.join c (w' :: ws))).
      intros [H|H]%(includes_app_char c); [| |done|done].
      * exists w. split; [by left|done].
      * destruct (IH H) as (x & Hx & Hi). exists x. split; [by right|done].
Qed.

Lemma includes_in_join c pat l w :
  w ∈ l → Str.includes pat w = true → Str.includes pat (Path.join c l) = true.
Proof.
  intros Hin Hw. induction l as [|x xs IH]; [by apply elem_of_nil in Hin|].
  destruct xs as [|x' xs].
  - apply list_elem_of_singleton in Hin as ->. done.
  - change (Path.join c (x :: x' :: xs))
      with (x +:+ String c (Path.join c (x' :: xs))).
    apply elem_of_cons in Hin as [->|Hin].
    + by apply includes_app_l.
    + apply includes_app_r. cbn [Str.includes]. rewrite (IH Hin). apply orb_true_r.
Qed.

Lemma split_char_free c s : Forall (λ w, Str.has_char c w = false) (Path.split c s).
Proof.
  induction s as [|a s IH]; simpl.
  - by constructor.
  - destruct (Ascii.eqb a c) eqn:Ha.
    + by constructor.
    + destruct (Path.split c s) as [|w ws].
      * constructor; [|done]. simpl. by rewrite Ha.
      * inversion IH; subst. constructor; [|done]. simpl. by rewrite Ha.
Qed.

Lemma split_one c w : Str.has_char c w = false → Path.split c w = [w].
Proof.
  induction w as [|a w IH]; simpl; [done|].
  intros [Ha Hw]%orb_false_iff. by rewrite Ha, (IH Hw).
Qed.

Lemma split_app_char c w s :
  Str.has_char c w = false →
  Path.split c (w +:+ String c s) = w :: Path.split c s.
Proof.
  induction w as [|a w IH]; simpl.
  - intros _. by rewrite Ascii.eqb_refl.
  - intros [Ha Hw]%orb_false_iff. by rewrite Ha, (IH Hw).
Qed.

Lemma split_of_join c l :
  l ≠ [] → Forall (λ w, Str.has_char c w = false) l →
  Path.split c (Path.join c l) = l.
Proof.
  induction l as [|w ws IH]; [done|].
  intros _ Hl. inversion Hl as [|? ? Hw Hws]; subst.
  destruct ws as [|w' ws].
  - simpl. by apply split_one.
  - change (Path.join c (w :: w' :: ws))
      with (w +:+ String c (Path.join c (w' :: ws))).
    rewrite split_app_char by done. f_equal. by apply IH.
Qed.

Lemma join_of_split c s : Path.join c (Path.split c s) = s.
Proof.
  induction s as [|a s IH]; [done|]. simpl.
  destruct (Ascii.eqb a c) eqn:Ha.
  - apply Ascii.eqb_eq in Ha as ->.
    pose proof (split_nonempty c s) as Hne.
    destruct (Path.split c s) as [|w ws]; [done|].
    change (Path.join c (EmptyString :: w :: ws))
      with (EmptyString +:+ String c (Path.join c (w :: ws))).
    by rewrite IH.
  - pose proof (split_nonempty c s) as Hne.
    destruct (Path.split c s) as [|w ws]; [done|].
    destruct ws as [|w' ws].
    + simpl in *. by rewrite IH.
    + change (Path.join c (String a w :: w' :: ws))
        with (String a (w +:+ String c (Path.join c (w' :: ws)))).
      change (Path.join c (w :: w' :: ws))
        with (w +:+ String c (Path.join c (w' :: ws))) in IH.
      by rewrite IH.
Qed.



(** ** The patch of [svelte/index.js] *)

Lemma filter_all {A} (P : A → Prop) `{∀ x, Decision (P x)} (l : list A) :
  (∀ x, x ∈ l → P x) → filter P l = l.
Proof.
  induction l as [|x l IH]; intros Hall; [done|].
  rewrite filter_cons, decide_True by (apply Hall; by left).
  f_equal. apply IH. intros y Hy. apply Hall. by right.
Qed.

Lemma patch_clean js : Str.includes "index.scss" (patch_index_js js) = false.
Proof.
  destruct (Str.includes "index.scss" (patch_index_js js)) eqn:H; [|done].
  apply (includes_join newline) in H as (w & Hin & Hw); [|done|done].
  apply list_elem_of_filter in Hin as [Hf _]. congruence.
Qed.

Lemma patch_id js :
  Str.includes "index.scss" js = false → patch_index_js js = js.
Proof.
  intros Hjs. unfold patch_index_js. rewrite filter_all; [apply join_of_split|].
  intros w Hin. destruct (Str.includes "index.scss" w) eqn:Hw; [|done].
  pose proof (includes_in_join newline _ _ w Hin Hw) as H.
  rewrite join_of_split in H. congruence.
Qed.

(** The patched [index.js] does not mention [index.scss] any more,
    anywhere in its text, and patching it again changes nothing. *)
Theorem patch_index_js_clean js :
  Str.includes "index.scss" (patch_index_js js) = false ∧
  patch_index_js (patch_index_js js) = patch_index_js js.
Proof.
  split; [apply patch_clean|]. apply patch_id, patch_clean.
Qed.

(** The patch leaves a text as it is exactly when the text does not
    mention [index.scss]: no line is lost or changed by the split and the
    join, whatever the blank lines and the line at the end. *)
Theorem patch_index_js_fixpoint js :
  patch_index_js js = js ↔ Str.includes "index.scss" js = false.
Proof.
  split; [|apply patch_id].
  intros H. rewrite <- H. apply patch_clean.
Qed.

(** The lines of the patched text are the lines of the text that do not
    mention [index.scss], in their order; when every line mentions it the
    patched text is empty. *)
Theorem patch_index_js_lines js :
  let kept := filter (λ line, Str.includes "index.scss" line = false)
                (Path.split newline js) in
  Path.split newline (patch_index_js js) = (if kept is [] then [EmptyString] else kept) ∧
  (kept = [] → patch_index_js js = EmptyString).
Proof.
  intros kept. unfold patch_index_js. fold kept.
  destruct kept as [|w ws] eqn:Hk; [done|]. split; [|done].
  apply split_of_join; [done|]. rewrite <- Hk. unfold kept.
  apply Forall_forall. intros w' [_ Hin]%list_elem_of_filter.
  pose proof (split_char_free newline js) as Hall.
  rewrite Forall_forall in Hall. by apply Hall.
Qed.

(** ** Where the files go *)

(** A declaration file [./dist/src/<base>] (or [dist/src/<base>], as the
    glob may give it) goes to [./dist/<base>], and a component
    [src/<base>] to [svelte/<base>], whatever [base] is: the first [/src],
    or [src/], is the one of the directory. *)
Theorem dest_paths base :
  dts_dest ("./dist/src/" +:+ base) = "./dist/" +:+ base ∧
  dts_dest ("dist/src/" +:+ base) = "dist/" +:+ base ∧
  svelte_dest ("src/" +:+ base) = "svelte/" +:+ base.
Proof. repeat split; by destruct base. Qed.


(** ** The style files *)

Lemma pathExists_Some p (fs : gmap string string) c :
  fs !! p = Some c → Fs.pathExists p fs = true.
Proof. intros H. unfold Fs.pathExists. rewrite bool_decide_eq_true, H. eauto. Qed.

Lemma pathExists_None p (fs : gmap string string) :
  fs !! p = None → Fs.pathExists p fs = false.
Proof.
  intros H. unfold Fs.pathExists. rewrite bool_decide_eq_false, H.
  by intros [? ?].
Qed.

Lemma process_style_files_spec (fs : gmap string string) :
  ∃ fs', process_style_files fs = Ok fs' ∧
    fs' !! "dist/style.css" = None ∧
    fs' !! "dist/index.css"
      = (if fs !! "dist/style.css" is Some c then Some c else fs !! "dist/index.css") ∧
    fs' !! "dist/index.min.css"
      = (if fs' !! "dist/index.css" is Some c then Some c else fs !! "dist/index.min.css") ∧
    ∀ p, p ≠ "dist/style.css" → p ≠ "dist/index.css" → p ≠ "dist/index.min.css" →
         fs' !! p = fs !! p.
Proof.
  unfold process_style_files.
  destruct (fs !! "dist/style.css") as [c|] eqn:Hs.
  - rewrite (pathExists_Some _ _ _ Hs).
    set (fs1 := if Fs.pathExists "dist/index.css" fs
                then Fs.remove "dist/index.css" fs else fs).
    assert (H1 : fs1 !! "dist/style.css" = Some c ∧ fs1 !! "dist/index.css" = None ∧
                 ∀ p, p ≠ "dist/index.css" → fs1 !! p = fs !! p).
    { unfold fs1, Fs.remove. destruct (fs !! "dist/index.css") as [c'|] eqn:Hi.
      - rewrite (pathExists_Some _ _ _ Hi).
        rewrite lookup_delete_ne, lookup_delete_eq by done.
        repeat split; [done|]. intros p Hp. by rewrite lookup_delete_ne.
      - by rewrite (pathExists_None _ _ Hi). }
    destruct H1 as (H1 & H2 & H3).
    unfold Fs.move. rewrite H1, (pathExists_None _ _ H2).
    set (fs2 := <["dist/index.css" := c]> (delete "dist/style.css" fs1)).
    assert (Hi2 : fs2 !! "dist/index.css" = Some c) by apply lookup_insert_eq.
    rewrite (pathExists_Some _ _ _ Hi2). unfold Fs.copy_overwrite. rewrite Hi2.
    eexists. split; [done|].
    split.
    { rewrite lookup_insert_ne by done. unfold fs2.
      by rewrite lookup_insert_ne, lookup_delete_eq. }
    split; [by rewrite lookup_insert_ne|].
    split; [by rewrite lookup_insert_eq, lookup_insert_ne, Hi2|].
    intros p Hp1 Hp2 Hp3. rewrite lookup_insert_ne by done. unfold fs2.
    rewrite lookup_insert_ne, lookup_delete_ne by done. by apply H3.
  - rewrite (pathExists_None _ _ Hs).
    destruct (fs !! "dist/index.css") as [c'|] eqn:Hi.
    + rewrite (pathExists_Some _ _ _ Hi). unfold Fs.copy_overwrite. rewrite Hi.
      eexists. split; [done|].
      split; [by rewrite lookup_insert_ne|].
      split; [by rewrite lookup_insert_ne|].
      split; [by rewrite lookup_insert_eq, lookup_insert_ne, Hi|].
      intros p Hp1 Hp2 Hp3. by rewrite lookup_insert_ne.
    + rewrite (pathExists_None _ _ Hi). exists fs. by rewrite Hs, Hi.
Qed.

(** The style step never throws, whatever files there are.  After it
    [dist/style.css] is gone; [dist/index.css] holds what [style.css]
    held, or what it held itself when there was no [style.css];
    [dist/index.min.css] is a copy of [dist/index.css] when there is one
    (a stale [index.min.css] stays when there is none); and no other file
    is touched. *)
Theorem process_style_files_layout (fs : gmap string string) :
  ∃ fs', process_style_files fs = Ok fs' ∧
    fs' !! "dist/style.css" = None ∧
    fs' !! "dist/index.css"
      = (if fs !! "dist/style.css" is Some c then Some c else fs !! "dist/index.css") ∧
    fs' !! "dist/index.min.css"
      = (if fs' !! "dist/index.css" is Some c then Some c else fs !! "dist/index.min.css") ∧
    ∀ p, p ≠ "dist/style.css" → p ≠ "dist/index.css" → p ≠ "dist/index.min.css" →
         fs' !! p = fs !! p.
Proof. apply process_style_files_spec. Qed.

(** Running the style step on its own result changes nothing: a second
    build of a package that produced no new [style.css] keeps the
    style files of the first. *)
Theorem process_style_files_idempotent (fs fs' : gmap string string) :
  process_style_files fs = Ok fs' → process_style_files fs' = Ok fs'.
Proof.
  intros H.
  destruct (process_style_files_spec fs) as (fs1 & H1 & Hs & Hi & Hm & Ho).
  rewrite H in H1. injection H1 as <-.
  destruct (process_style_files_spec fs') as (fs2 & H2 & Hs2 & Hi2 & Hm2 & Ho2).
  rewrite H2. f_equal. apply map_eq. intros p.
  rewrite Hs in Hi2.
  destruct (decide (p = "dist/style.css")) as [->|N1]; [by rewrite Hs, Hs2|].
  destruct (decide (p = "dist/index.css")) as [->|N2]; [done|].
  destruct (decide (p = "dist/index.min.css")) as [->|N3]; [|by apply Ho2].
  rewrite Hm2, Hi2, Hm. by destruct (fs' !! "dist/index.css").
Qed.

(** ** What is left out of the bundles *)

Lemma cjs_deps_installed (node_modules : gmap string (option string)) deps :
  (∀ d, d ∈ deps → is_Some (node_modules !! d)) →
  cjs_deps node_modules deps
  = Ok (filter (λ d, node_modules !! d ≠ Some (Some "module")) deps).
Proof.
  induction deps as [|dep deps IH]; intros Hall; [done|]. simpl.
  destruct (Hall dep) as [ty Hty]; [by left|]. rewrite Hty.
  rewrite IH by (intros d Hd; apply Hall; by right).
  rewrite filter_cons, Hty. f_equal.
  destruct (decide (ty = Some "module")) as [->|Hne].
  - by rewrite decide_False by (by intros ?).
  - by rewrite decide_True by congruence.
Qed.

Lemma cjs_deps_missing (node_modules : gmap string (option string)) pre dep post :
  (∀ d, d ∈ pre → is_Some (node_modules !! d)) →
  node_modules !! dep = None →
  cjs_deps node_modules (pre ++ dep :: post)
  = Err (dep +:+ " not exists, please install it").
Proof.
  intros Hpre Hdep. induction pre as [|d pre IH]; simpl.
  - by rewrite Hdep.
  - destruct (Hpre d) as [ty Hty]; [by left|]. rewrite Hty.
    by rewrite IH by (intros d' Hd'; apply Hpre; by right).
Qed.

Lemma cjs_deps_subset (node_modules : gmap string (option string)) deps kept :
  cjs_deps node_modules deps = Ok kept → ∀ d, d ∈ kept → d ∈ deps.
Proof.
  revert kept. induction deps as [|dep deps IH]; intros kept; simpl.
  - intros [= <-] d Hd. done.
  - destruct (node_modules !! dep) as [ty|]; [|done].
    destruct (cjs_deps node_modules deps) as [kept'|]; [|done].
    intros [= <-] d Hd. destruct (decide (ty = Some "module")).
    + right. by apply (IH kept').
    + apply elem_of_cons in Hd as [->|Hd]; [by left|]. right. by apply (IH kept').
Qed.

(** With every dependency installed the cjs bundle leaves out the peer
    dependencies and the dependencies that are not ES modules, and
    bundles those whose [package.json] says [type: module]. *)
Theorem cjs_externals_when_installed (node_modules : gmap string (option string)) pkg :
  (∀ d, d ∈ dependencies pkg → is_Some (node_modules !! d)) →
  externalDeps node_modules pkg "cjs"
  = Ok (peerDependencies pkg
        ++ filter (λ d, node_modules !! d ≠ Some (Some "module")) (dependencies pkg)).
Proof.
  intros Hall. unfold externalDeps. simpl.
  by rewrite cjs_deps_installed.
Qed.

(** The cjs round throws on the first dependency, in the order of
    [package.json], that has no [package.json] under [node_modules], with
    the message that names it; whether later ones are installed does not
    matter. *)
Theorem cjs_missing_dependency (node_modules : gmap string (option string))
    pkg pre dep post :
  dependencies pkg = pre ++ dep :: post →
  (∀ d, d ∈ pre → is_Some (node_modules !! d)) →
  node_modules !! dep = None →
  externalDeps node_modules pkg "cjs"
  = Err (dep +:+ " not exists, please install it").
Proof.
  intros Hdeps Hpre Hdep. unfold externalDeps. simpl.
  by rewrite Hdeps, cjs_deps_missing.
Qed.

(** What umd leaves out (the peer dependencies) cjs leaves out too, and
    what cjs leaves out es leaves out too: going from es to cjs to umd a
    bundle only takes more in.  In particular the peer dependencies are
    external in all three formats. *)
Theorem externals_shrink (node_modules : gmap string (option string)) pkg lc :
  externalDeps node_modules pkg "cjs" = Ok lc →
  ∃ lu le,
    externalDeps node_modules pkg "umd" = Ok lu ∧
    externalDeps node_modules pkg "es" = Ok le ∧
    lu = peerDependencies pkg ∧
    (∀ d, d ∈ lu → d ∈ lc) ∧ (∀ d, d ∈ lc → d ∈ le) ∧
    (∀ d, d ∈ le ↔ d ∈ peerDependencies pkg ∨ d ∈ dependencies pkg).
Proof.
  unfold externalDeps. simpl.
  destruct (cjs_deps node_modules (dependencies pkg)) as [kept|] eqn:Hk; [|done].
  intros [= <-]. eexists _, _. split; [done|]. split; [done|]. split; [done|].
  assert (Hes : ∀ d, d ∈ object_keys_spread (peerDependencies pkg) (dependencies pkg)
                     ↔ d ∈ peerDependencies pkg ∨ d ∈ dependencies pkg).
  { intros d. unfold object_keys_spread. rewrite elem_of_app, list_elem_of_filter.
    destruct (decide (d ∈ peerDependencies pkg)); naive_solver. }
  split; [|split; [|done]].
  - intros d Hd. apply elem_of_app. by left.
  - intros d [Hd|Hd]%elem_of_app; apply Hes; [by left|right].
    by apply (cjs_deps_subset node_modules _ kept).
Qed.

(** With every dependency installed, [resolve.sync] finding its module
    and [build] never throwing, [build] is called three times, for es,
    cjs and umd in this order; only the umd bundle is minified; only the
    cjs round has the alias for [decode-named-character-reference]. *)
Theorem build_formats_all vite (node_modules : gmap string (option string))
    path name pkg :
  (∀ c, vite c = None) →
  (∀ d, d ∈ dependencies pkg → is_Some (node_modules !! d)) →
  ∃ built,
    build_formats vite node_modules (Ok path) name pkg formats = (built, None) ∧
    bc_format <$> built = ["es"; "cjs"; "umd"] ∧
    bc_minify <$> built = [false; false; true] ∧
    (map fst ∘ bc_alias) <$> built
    = [["lowlight"]; ["lowlight"; "decode-named-character-reference"]; ["lowlight"]].
Proof.
  intros Hv Hall. unfold formats, build_formats, build_config, externalDeps. simpl.
  rewrite cjs_deps_installed by done. rewrite !Hv. by eexists.
Qed.

(** With a dependency that is not installed (and [build] not throwing)
    the es bundle is built and then the loop ends with the error of the
    cjs round: [build] is never called for cjs or umd. *)
Theorem build_formats_stops_at_cjs vite (node_modules : gmap string (option string))
    resolved name pkg pre dep post :
  (∀ c, vite c = None) →
  dependencies pkg = pre ++ dep :: post →
  (∀ d, d ∈ pre → is_Some (node_modules !! d)) →
  node_modules !! dep = None →
  ∃ es,
    build_formats vite node_modules resolved name pkg formats
    = ([es], Some (dep +:+ " not exists, please install it")) ∧
    bc_format es = "es".
Proof.
  intros Hv Hdeps Hpre Hdep.
  unfold formats, build_formats, build_config, externalDeps. simpl.
  rewrite Hdeps, cjs_deps_missing by done. rewrite Hv. by eexists.
Qed.

(** ** The plugins *)

(** [highlightSsr] registers one [rehype] use and no [remark] use.  The
    options it passes on are the ones it was given: [ignoreMissing] is
    [true] when left out or [undefined], and otherwise the value given
    ([false] and [null] included); every other option goes through as it
    is. *)
Theorem highlightSsr_options arg processor :
  let o := default ∅ arg in
  remark (highlightSsr arg) = None ∧
  ∃ f opts,
    rehype (highlightSsr arg) = Some f ∧
    f processor = processor ++ [RehypeHighlight opts] ∧
    (∀ v, o !! "ignoreMissing" = Some v → v ≠ VUndefined →
          opts !! "ignoreMissing" = Some v) ∧
    (o !! "ignoreMissing" = None ∨ o !! "ignoreMissing" = Some VUndefined →
     opts !! "ignoreMissing" = Some (VBool true)) ∧
    (∀ k, k ≠ "ignoreMissing" → opts !! k = o !! k).
Proof.
  intros o. split; [done|]. eexists _, _. split; [done|]. split; [done|].
  fold o. split; [|split].
  - intros v Hv Hne. rewrite lookup_insert_eq, Hv. by destruct v.
  - intros [H|H]; by rewrite lookup_insert_eq, H.
  - intros k Hk. by rewrite lookup_insert_ne, lookup_delete_ne.
Qed.

(** ** The further theorems at work *)

Lemma only_registered_packages_witness :
  let st := demo_state demo_busy in
  (∀ t n, (t, n) ∈ build_calls st → n ∈ demo_packages) ∧
  (∀ t n, (t, n) ∈ queue_calls st → n ∈ demo_packages) ∧
  (∀ n, n ∈ building st → n ∈ demo_packages) ∧
  (∀ t, t ∈ tasks st → t_name t ∈ demo_packages) ∧
  (∀ id d a, timers st !! id = Some (d, a) → a ∈ demo_packages).
Proof.
  exact (only_registered_packages demo_packages demo_dir demo_cwd demo_busy
           (demo_state demo_busy) demo_busy_run).
Defined.

Lemma cwd_is_a_place_witness :
  let st := demo_state demo_busy in
  place demo_packages demo_dir demo_cwd (cwd st) ∧
  ∀ t, t ∈ tasks st → place demo_packages demo_dir demo_cwd (t_originalCwd t).
Proof.
  exact (cwd_is_a_place demo_packages demo_dir demo_cwd demo_busy
           (demo_state demo_busy) demo_busy_run).
Defined.


Lemma demo_initial_over : pass_over (demo_state demo_initial).
Proof.
  intros t Hin.
  assert (H : tasks (demo_state demo_initial) = []) by (by vm_compute).
  rewrite H in Hin. by apply elem_of_nil in Hin.
Qed.

Lemma no_overlap_after_initial_pass_witness :
  (outstanding "bytemd" (demo_state demo_busy) ≤ 1)%nat.
Proof.
  apply (no_overlap_after_initial_pass demo_packages demo_dir demo_cwd
           demo_initial (demo_state demo_initial)
           [EWatch Change "/repo/packages/bytemd/src/index.ts"; ETick 300; ETimer 0]
           (demo_state demo_busy) "bytemd").
  - exact demo_initial_run.
  - exact demo_initial_over.
  - by vm_compute.
Defined.

Lemma demo_plain_react : plain "react".
Proof. by repeat split. Qed.

Lemma demo_inside_react :
  inside (Path.resolve demo_dir "react") "/repo/packages/react/dist/index.js".
Proof. by exists ["dist"; "index.js"]. Qed.

Lemma watched_file_schedules_build_witness :
  let st := demo_state demo_busy in
  let filePath := "/repo/packages/react/dist/index.js" in
  ∃ st',
    step demo_packages demo_dir (EWatch Unlink filePath) st = Some st' ∧
    console st' = console st ++ [LFile Unlink filePath] ∧
    timers st' = {[nextTimer st := (clock st + 300, "react")]} ∧
    trace st' = trace st ∧ tasks st' = tasks st ∧
    building st' = building st ∧ buildQueue st' = buildQueue st ∧
    cwd st' = cwd st.
Proof.
  apply (watched_file_schedules_build demo_packages demo_dir demo_cwd demo_busy
           (demo_state demo_busy) Unlink "/repo/packages/react/dist/index.js" "react").
  - exact demo_busy_run.
  - exact demo_plain_react.
  - unfold demo_packages. set_solver.
  - exact demo_inside_react.
Defined.

Lemma file_in_package_resolves_witness :
  getPackageName demo_dir "/repo/packages/react/dist/index.js" = "react".
Proof.
  apply (file_in_package_resolves demo_dir "react" "/repo/packages/react/dist/index.js").
  - exact demo_plain_react.
  - exact demo_inside_react.
Defined.

Lemma demo_outside : ¬ inside demo_dir "/repo/scripts/build.mjs".
Proof.
  intros H. unfold inside in H. apply (bool_decide_pack _) in H. by vm_compute in H.
Qed.

Lemma outside_packagesDir_is_dotdot_witness :
  getPackageName demo_dir "/repo/scripts/build.mjs" = "..".
Proof.
  apply (outside_packagesDir_is_dotdot demo_dir "/repo/scripts/build.mjs").
  exact demo_outside.
Defined.

Definition demo_styles : gmap string string :=
  {["dist/style.css" := "a{}"; "dist/index.css" := "b{}"; "dist/index.js" := "x"]}.

Definition demo_styles_done : gmap string string :=
  {["dist/index.css" := "a{}"; "dist/index.min.css" := "a{}"; "dist/index.js" := "x"]}.

Lemma process_style_files_idempotent_witness :
  process_style_files demo_styles = Ok demo_styles_done ∧
  process_style_files demo_styles_done = Ok demo_styles_done.
Proof.
  assert (H : process_style_files demo_styles = Ok demo_styles_done) by (by vm_compute).
  split; [exact H|].
  exact (process_style_files_idempotent demo_styles demo_styles_done H).
Defined.

Definition demo_pkg : PackageJson :=
  mkPackageJson "@t-agent/bytemd-plugin-gfm" ["bytemd"] ["remark-gfm"; "micromark"; "lodash"].

(** [remark-gfm] is an ES module, [micromark] and [lodash] are not. *)
Definition demo_node_modules : gmap string (option string) :=
  {["remark-gfm" := Some "module"; "micromark" := Some "commonjs"; "lodash" := None]}.

(** [micromark] is not installed. *)
Definition demo_node_modules_short : gmap string (option string) :=
  {["remark-gfm" := Some "module"; "lodash" := None]}.

Lemma demo_all_installed :
  ∀ d, d ∈ dependencies demo_pkg → is_Some (demo_node_modules !! d).
Proof.
  intros d Hd. simpl in Hd.
  repeat (apply elem_of_cons in Hd as [->|Hd]; [by vm_compute; eauto|]).
  by apply elem_of_nil in Hd.
Qed.

Lemma demo_first_installed :
  ∀ d, d ∈ ["remark-gfm"] → is_Some (demo_node_modules_short !! d).
Proof.
  intros d Hd. apply list_elem_of_singleton in Hd as ->. by vm_compute; eauto.
Qed.

Lemma cjs_externals_when_installed_witness :
  externalDeps demo_node_modules demo_pkg "cjs"
  = Ok (peerDependencies demo_pkg
        ++ filter (λ d, demo_node_modules !! d ≠ Some (Some "module"))
             (dependencies demo_pkg)).
Proof.
  exact (cjs_externals_when_installed demo_node_modules demo_pkg demo_all_installed).
Defined.

Lemma cjs_missing_dependency_witness :
  externalDeps demo_node_modules_short demo_pkg "cjs"
  = Err ("micromark" +:+ " not exists, please install it").
Proof.
  apply (cjs_missing_dependency demo_node_modules_short demo_pkg
           ["remark-gfm"] "micromark" ["lodash"]).
  - reflexivity.
  - exact demo_first_installed.
  - by vm_compute.
Defined.

Lemma externals_shrink_witness :
  ∃ lu le,
    externalDeps demo_node_modules demo_pkg "umd" = Ok lu ∧
    externalDeps demo_node_modules demo_pkg "es" = Ok le ∧
    lu = peerDependencies demo_pkg ∧
    (∀ d, d ∈ lu → d ∈ ["bytemd"; "micromark"; "lodash"]) ∧
    (∀ d, d ∈ ["bytemd"; "micromark"; "lodash"] → d ∈ le) ∧
    (∀ d, d ∈ le ↔ d ∈ peerDependencies demo_pkg ∨ d ∈ dependencies demo_pkg).
Proof.
  apply (externals_shrink demo_node_modules demo_pkg ["bytemd"; "micromark"; "lodash"]).
  by vm_compute.
Defined.

Lemma build_formats_all_witness :
  ∃ built,
    build_formats (λ _, None) demo_node_modules (Ok "/repo/node_modules/decode/index.js")
      "plugin-gfm" demo_pkg formats = (built, None) ∧
    bc_format <$> built = ["es"; "cjs"; "umd"] ∧
    bc_minify <$> built = [false; false; true] ∧
    (map fst ∘ bc_alias) <$> built
    = [["lowlight"]; ["lowlight"; "decode-named-character-reference"]; ["lowlight"]].
Proof.
  apply (build_formats_all (λ _, None) demo_node_modules
           "/repo/node_modules/decode/index.js" "plugin-gfm" demo_pkg).
  - reflexivity.
  - exact demo_all_installed.
Defined.

Lemma build_formats_stops_at_cjs_witness :
  ∃ es,
    build_formats (λ _, None) demo_node_modules_short
      (Ok "/repo/node_modules/decode/index.js") "plugin-gfm" demo_pkg formats
    = ([es], Some ("micromark" +:+ " not exists, please install it")) ∧
    bc_format es = "es".
Proof.
  apply (build_formats_stops_at_cjs (λ _, None) demo_node_modules_short
           (Ok "/repo/node_modules/decode/index.js") "plugin-gfm" demo_pkg
           ["remark-gfm"] "micromark" ["lodash"]).
  - reflexivity.
  - reflexivity.
  - exact demo_first_installed.
  - by vm_compute.
Defined.
